(** * Black-Scholes pricer and heat-map sweep of [black_scholes.py]

    The Python program prices European options with the closed
    Black-Scholes formula and fills two 10 x 10 grids of prices over a
    range of spots and volatilities.  The development embeds the
    program over the real numbers extended the way the float code is:
    a finite float is a real (rounding, overflow and underflow are left
    out), and numpy's operations go on with [inf], [-inf] or [nan] where
    there is no real value: a zero divisor gives an infinity or [nan],
    the logarithm of zero is [-inf], the logarithm or the square root of
    a negative number is [nan].  The inputs of the form are finite
    reals, a zero input being [+0.0]. *)

From Stdlib Require Import String Reals Lra Lia List Bool PeanoNat.
Import ListNotations.
Local Open Scope R_scope.

(** ** Integrals of continuous functions

    [scipy.stats.norm.cdf] is the error-function based normal
    distribution function; the error function is an integral, taken
    here as the Riemann integral of the Standard Library. *)

Section Primitive.

Variable f : R -> R.
Hypothesis f_cont : continuity f.

Lemma cont_integrable (a b : R) : Riemann_integrable f a b.
Proof.
  destruct (Rle_dec a b) as [Hab | Hab].
  - apply continuity_implies_RiemannInt; [exact Hab | intros; apply f_cont].
  - apply RiemannInt_P1, continuity_implies_RiemannInt;
      [lra | intros; apply f_cont].
Qed.

(** The integral of [f] from [a] to [b], whichever way round they are. *)
Definition integral (a b : R) : R := RiemannInt (cont_integrable a b).

End Primitive.

(** ** The normal distribution function *)

(** Integrand of the error function. *)
Definition erf_integrand (t : R) : R := exp (- t ^ 2).

Lemma erf_integrand_continuity : continuity erf_integrand.
Proof.
  apply derivable_continuous. unfold erf_integrand. reg.
Qed.

(** [erf z = 2 / sqrt pi * integral from 0 to z of exp (- t^2)]. *)
Definition erf (z : R) : R :=
  2 / sqrt PI * integral erf_integrand erf_integrand_continuity 0 z.

(** [norm.cdf] of scipy for the standard normal law:
    [ndtr x = (1 + erf (x / sqrt 2)) / 2]. *)
Definition norm_cdf (x : R) : R := (1 + erf (x / sqrt 2)) / 2.

(** Density of the standard normal law. *)
Definition norm_pdf (x : R) : R := exp (- x ^ 2 / 2) / sqrt (2 * PI).

(** ** Values that can be missing *)

Definition bind {A B : Type} (m : option A) (k : A -> option B) : option B :=
  match m with
  | Some a => k a
  | None => None
  end.

Notation "x <- m ;; k" := (bind m (fun x => k))
  (at level 61, m at next level, right associativity).

(** ** numpy floats *)

(** A numpy float.  [Fin x] is the real [x]; the sign of a zero is
    recorded only as [NegZero], for the product [sigma * np.sqrt(T)]: as
    a divisor it is the one place where the sign of a zero changes a
    result.  Elsewhere [Fin 0] is a zero of either sign. *)
Inductive xfloat : Type :=
| Fin (x : R)
| NegZero
| PosInf
| NegInf
| NaN.

Inductive sign : Type := Negative | Zero | Positive.

Definition sign_of (x : R) : sign :=
  match total_order_T x 0 with
  | inleft (left _) => Negative
  | inleft (right _) => Zero
  | inright _ => Positive
  end.

(** The real a finite float stands for. *)
Definition value (a : xfloat) : R :=
  match a with
  | Fin x => x
  | _ => 0
  end.

(** The sign bit. *)
Definition is_neg (a : xfloat) : bool :=
  match a with
  | Fin x => match sign_of x with Negative => true | _ => false end
  | NegZero => true
  | PosInf => false
  | NegInf => true
  | NaN => false
  end.

Definition signed_inf (neg : bool) : xfloat := if neg then NegInf else PosInf.

(** [np.log] of a Python float: [-inf] at zero, [nan] below. *)
Definition np_log (x : R) : xfloat :=
  match sign_of x with
  | Positive => Fin (ln x)
  | Zero => NegInf
  | Negative => NaN
  end.

(** [np.sqrt] of a Python float: [nan] below zero. *)
Definition np_sqrt (x : R) : xfloat :=
  match sign_of x with
  | Negative => NaN
  | _ => Fin (sqrt x)
  end.

(** [a + b] for a numpy float [a] and a Python float [b]. *)
Definition xadd (a : xfloat) (b : R) : xfloat :=
  match a with
  | Fin x => Fin (x + b)
  | NegZero => Fin b
  | PosInf => PosInf
  | NegInf => NegInf
  | NaN => NaN
  end.

(** [a * b] for a Python float [a] and a numpy float [b]: a zero
    product is [-0.0] when exactly one factor has its sign bit set. *)
Definition xmul (a : R) (b : xfloat) : xfloat :=
  match b with
  | Fin y =>
      if Req_dec_T (a * y) 0
      then (if xorb (is_neg (Fin a)) (is_neg (Fin y)) then NegZero else Fin 0)
      else Fin (a * y)
  | NegZero => if is_neg (Fin a) then Fin 0 else NegZero
  | PosInf =>
      match sign_of a with
      | Positive => PosInf | Negative => NegInf | Zero => NaN
      end
  | NegInf =>
      match sign_of a with
      | Positive => NegInf | Negative => PosInf | Zero => NaN
      end
  | NaN => NaN
  end.

(** [a / b] for two numpy floats: no exception; a zero divisor gives
    [nan] under a zero and an infinity, signed by both sign bits, under
    anything else. *)
Definition xdiv (a b : xfloat) : xfloat :=
  match a, b with
  | NaN, _ | _, NaN => NaN
  | (PosInf | NegInf), (PosInf | NegInf) => NaN
  | (PosInf | NegInf), _ => signed_inf (xorb (is_neg a) (is_neg b))
  | _, (PosInf | NegInf) => Fin 0
  | _, _ =>
      if Req_dec_T (value b) 0 then
        if Req_dec_T (value a) 0 then NaN
        else signed_inf (xorb (is_neg a) (is_neg b))
      else Fin (value a / value b)
  end.

(** [a - b] for two numpy floats. *)
Definition xsub (a b : xfloat) : xfloat :=
  match a, b with
  | NaN, _ | _, NaN => NaN
  | PosInf, PosInf | NegInf, NegInf => NaN
  | PosInf, _ => PosInf
  | NegInf, _ => NegInf
  | _, PosInf => NegInf
  | _, NegInf => PosInf
  | _, _ => Fin (value a - value b)
  end.

(** [- a]. *)
Definition xneg (a : xfloat) : xfloat :=
  match a with
  | Fin x => Fin (- x)
  | NegZero => Fin 0
  | PosInf => NegInf
  | NegInf => PosInf
  | NaN => NaN
  end.

(** [norm.cdf] on a numpy float: 1 at [inf], 0 at [-inf], [nan] at
    [nan]; the result is a real or [nan] ([None]). *)
Definition cdf (a : xfloat) : option R :=
  match a with
  | Fin x => Some (norm_cdf x)
  | NegZero => Some (norm_cdf 0)
  | PosInf => Some 1
  | NegInf => Some 0
  | NaN => None
  end.

(** ** The pricer *)

(** The exceptions a call can end in.  [S / K] divides two Python floats
    and raises [ZeroDivisionError] on a zero strike (the sweep, where [S]
    is a numpy float, is reached only after line 101 has made that
    division with the same [K]); the division after it is numpy's, which
    gives [inf] or [nan] and goes on.  Nothing in the program raises
    [ValueError]. *)
Inductive exception : Type :=
| ZeroDivisionError
| ValueError.

(** What a call of [black_scholes] gives back: the value of a [return]
    expression, which is a real or [nan] ([None]); Python's [None] when
    the function body ends without a [return]; or an exception. *)
Inductive outcome : Type :=
| Returns (v : option R)
| ReturnsNone
| Raises (e : exception).

(** Line 9: [(np.log(S / K) + (r + 0.5 * sigma ** 2) * T) / (sigma * np.sqrt(T))],
    once [S / K] has a value. *)
Definition d1 (S K T r sigma : R) : xfloat :=
  xdiv (xadd (np_log (S / K)) ((r + 0.5 * sigma ^ 2) * T))
       (xmul sigma (np_sqrt T)).

(** Line 10: [d1 - sigma * np.sqrt(T)]. *)
Definition d2 (d1 : xfloat) (T sigma : R) : xfloat :=
  xsub d1 (xmul sigma (np_sqrt T)).

Definition black_scholes (S K T r sigma : R) (option_type : string) : outcome :=
  if Req_dec_T K 0 then Raises ZeroDivisionError else
  let d1 := d1 S K T r sigma in
  let d2 := d2 d1 T sigma in
  if (option_type =? "call")%string then
    Returns (a <- cdf d1 ;; b <- cdf d2 ;;
             Some (S * a - K * exp (- r * T) * b))
  else if (option_type =? "put")%string then
    Returns (a <- cdf (xneg d2) ;; b <- cdf (xneg d1) ;;
             Some (K * exp (- r * T) * a - S * b))
  else ReturnsNone.

(** A call site of [black_scholes]: the sixth argument is optional and
    its default is ['call']. *)
Definition black_scholes_call (S K T r sigma : R) (option_type : option string)
  : outcome :=
  black_scholes S K T r sigma
    (match option_type with Some k => k | None => "call"%string end).

(** ** The sweep behind the heat maps *)

(** [l[-1] = v] on a non-empty list; an empty list has no last cell. *)
Fixpoint set_last (v : R) (l : list R) : list R :=
  match l with
  | [] => []
  | [_] => [v]
  | x :: t => x :: set_last v t
  end.

(** [np.linspace(start, stop, num)] with its defaults ([endpoint=True]):
    [arange(0, num)] scaled by the step, shifted by [start], and the
    last sample overwritten with [stop]. *)
Definition linspace (start stop : R) (num : nat) : list R :=
  let div := (num - 1)%nat in
  let delta := stop - start in
  let y := map INR (seq 0 num) in
  let y :=
    if (0 <? div)%nat then
      let step := delta / INR div in
      if Req_dec_T step 0
      then map (fun v => v / INR div * delta) y
      else map (fun v => v * step) y
    else map (fun v => v * delta) y in
  let y := map (fun v => v + start) y in
  if (1 <? num)%nat then set_last stop y else y.

(** [enumerate(l)]. *)
Definition enumerate {A : Type} (l : list A) : list (nat * A) :=
  combine (seq 0 (length l)) l.

(** A two-dimensional array of floats, row by row; a cell that is not
    a real number is [None]. *)
Definition grid : Type := list (list (option R)).

(** [np.zeros((rows, cols))]. *)
Definition zeros (rows cols : nat) : grid :=
  repeat (repeat (Some 0) cols) rows.

(** [l[i] = v]; an index out of range raises [IndexError]: [None]. *)
Fixpoint list_set {A : Type} (i : nat) (v : A) (l : list A) : option (list A) :=
  match l, i with
  | [], _ => None
  | _ :: t, O => Some (v :: t)
  | h :: t, S i' => t' <- list_set i' v t ;; Some (h :: t')
  end.

(** [g[i, j] = v]. *)
Definition setitem (g : grid) (i j : nat) (v : option R) : option grid :=
  row <- nth_error g i ;;
  row' <- list_set j v row ;;
  list_set i row' g.

(** [g[i, j]]. *)
Definition getitem (g : grid) (i j : nat) : option (option R) :=
  row <- nth_error g i ;; nth_error row j.

(** The float an assignment into a float array stores for the result
    of a call: an exception leaves the loop, [None] is stored as [nan]. *)
Definition as_float (o : outcome) : option (option R) :=
  match o with
  | Returns v => Some v
  | ReturnsNone => Some None
  | Raises _ => None
  end.

(** One call of the pricer as the loop makes it: spot, volatility, kind. *)
Definition invocation : Type := (R * R * string)%type.

(** The variables the two loops update, and the calls made so far. *)
Record sweep_state : Type := mkState {
  call_prices : grid;
  put_prices : grid;
  invocations : list invocation
}.

(** A [for] loop over a list, each pass threading the state and
    stopping at the first exception. *)
Fixpoint for_each {A : Type} (body : A -> sweep_state -> option sweep_state)
  (l : list A) (st : sweep_state) : option sweep_state :=
  match l with
  | [] => Some st
  | a :: rest => st' <- body a st ;; for_each body rest st'
  end.

Section Sweep.

(** Strike, maturity and rate are read once from the form and stay
    fixed during the sweep. *)
Variables K T r : R.

(** Lines 131-132: the body of the inner loop. *)
Definition price_cell (i : nat) (sigma : R) (jS : nat * R) (st : sweep_state)
  : option sweep_state :=
  let j := fst jS in
  let S := snd jS in
  c <- as_float (black_scholes S K T r sigma "call") ;;
  cp <- setitem (call_prices st) i j c ;;
  p <- as_float (black_scholes S K T r sigma "put") ;;
  pp <- setitem (put_prices st) i j p ;;
  Some (mkState cp pp
          (invocations st ++ [(S, sigma, "call"%string); (S, sigma, "put"%string)])).

(** Lines 129-132 for given sample lists. *)
Definition fill_grids (spots volatilities : list R) (st : sweep_state)
  : option sweep_state :=
  for_each (fun isigma : nat * R =>
              let '(i, sigma) := isigma in
              for_each (price_cell i sigma) (enumerate spots))
           (enumerate volatilities) st.

(** Lines 124-132, with the number of samples as a parameter. *)
Definition sweep (steps : nat) (min_spot max_spot min_volatility max_volatility : R)
  : option sweep_state :=
  let spots := linspace min_spot max_spot steps in
  let volatilities := linspace min_volatility max_volatility steps in
  let call_prices := zeros (length volatilities) (length spots) in
  let put_prices := zeros (length volatilities) (length spots) in
  fill_grids spots volatilities (mkState call_prices put_prices []).

(** The program samples ten points on each axis. *)
Definition heatmap_sweep := sweep 10.

End Sweep.

(** * Properties *)

(** Split a conjunction along its spine only. *)
Ltac split_conj := repeat match goal with |- _ /\ _ => split end.

(** ** The pricer on valid inputs *)

(** The closed forms of the two intermediate quantities. *)
Definition d1_formula (S K T r sigma : R) : R :=
  (ln (S / K) + (r + sigma ^ 2 / 2) * T) / (sigma * sqrt T).

Definition d2_formula (S K T r sigma : R) : R :=
  d1_formula S K T r sigma - sigma * sqrt T.

Lemma sign_of_positive (x : R) : 0 < x -> sign_of x = Positive.
Proof.
  intros Hx. unfold sign_of.
  destruct (total_order_T x 0) as [[H | H] | H]; (reflexivity || lra).
Qed.

Lemma sign_of_negative (x : R) : x < 0 -> sign_of x = Negative.
Proof.
  intros Hx. unfold sign_of.
  destruct (total_order_T x 0) as [[H | H] | H]; (reflexivity || lra).
Qed.

Lemma sign_of_zero : sign_of 0 = Zero.
Proof.
  unfold sign_of.
  destruct (total_order_T 0 0) as [[H | H] | H]; (reflexivity || lra).
Qed.

Lemma np_log_positive (x : R) : 0 < x -> np_log x = Fin (ln x).
Proof. intros Hx. unfold np_log. now rewrite sign_of_positive. Qed.

Lemma np_sqrt_nonneg (x : R) : 0 <= x -> np_sqrt x = Fin (sqrt x).
Proof.
  intros [Hx | <-]; unfold np_sqrt;
    [now rewrite sign_of_positive | now rewrite sign_of_zero].
Qed.

Lemma xmul_nonzero (a y : R) : a * y <> 0 -> xmul a (Fin y) = Fin (a * y).
Proof.
  intros H. unfold xmul. destruct (Req_dec_T (a * y) 0); [contradiction | reflexivity].
Qed.

Lemma xdiv_nonzero (x y : R) : y <> 0 -> xdiv (Fin x) (Fin y) = Fin (x / y).
Proof.
  intros H. unfold xdiv. cbn [value].
  destruct (Req_dec_T y 0); [contradiction | reflexivity].
Qed.

Lemma denominator_pos (T sigma : R) : 0 < T -> 0 < sigma -> 0 < sigma * sqrt T.
Proof. intros HT Hs. apply Rmult_lt_0_compat; [exact Hs | now apply sqrt_lt_R0]. Qed.

Lemma ratio_pos (S K : R) : 0 < S -> 0 < K -> 0 < S / K.
Proof. intros HS HK. now apply Rdiv_lt_0_compat. Qed.

Lemma d1_valid (S K T r sigma : R) :
  0 < S -> 0 < K -> 0 < T -> 0 < sigma ->
  d1 S K T r sigma = Fin (d1_formula S K T r sigma).
Proof.
  intros HS HK HT Hs. unfold d1, d1_formula.
  rewrite np_log_positive by now apply ratio_pos.
  rewrite np_sqrt_nonneg by lra.
  pose proof (denominator_pos T sigma HT Hs) as Hden.
  rewrite xmul_nonzero by lra. cbn [xadd].
  rewrite xdiv_nonzero by lra.
  do 2 f_equal. lra.
Qed.

Lemma d2_valid (S K T r sigma : R) :
  0 < S -> 0 < K -> 0 < T -> 0 < sigma ->
  d2 (d1 S K T r sigma) T sigma = Fin (d2_formula S K T r sigma).
Proof.
  intros HS HK HT Hs. unfold d2.
  rewrite d1_valid by assumption.
  rewrite np_sqrt_nonneg by lra.
  pose proof (denominator_pos T sigma HT Hs) as Hden.
  rewrite xmul_nonzero by lra. reflexivity.
Qed.

(** The two prices as real numbers. *)
Definition call_value (S K T r sigma : R) : R :=
  S * norm_cdf (d1_formula S K T r sigma)
  - K * exp (- r * T) * norm_cdf (d2_formula S K T r sigma).

Definition put_value (S K T r sigma : R) : R :=
  K * exp (- r * T) * norm_cdf (- d2_formula S K T r sigma)
  - S * norm_cdf (- d1_formula S K T r sigma).

Lemma black_scholes_call_valid (S K T r sigma : R) :
  0 < S -> 0 < K -> 0 < T -> 0 < sigma ->
  black_scholes S K T r sigma "call" = Returns (Some (call_value S K T r sigma)).
Proof.
  intros HS HK HT Hs. unfold black_scholes.
  destruct (Req_dec_T K 0) as [HK0 | _]; [lra | ].
  cbn [String.eqb Ascii.eqb Bool.eqb].
  rewrite d2_valid, d1_valid by assumption. reflexivity.
Qed.

Lemma black_scholes_put_valid (S K T r sigma : R) :
  0 < S -> 0 < K -> 0 < T -> 0 < sigma ->
  black_scholes S K T r sigma "put" = Returns (Some (put_value S K T r sigma)).
Proof.
  intros HS HK HT Hs. unfold black_scholes.
  destruct (Req_dec_T K 0) as [HK0 | _]; [lra | ].
  cbn [String.eqb Ascii.eqb Bool.eqb].
  rewrite d2_valid, d1_valid by assumption. reflexivity.
Qed.

(** C1.  On valid inputs the pricer returns the Black-Scholes closed
    forms: the call is [S * Phi d1 - K * exp (- r T) * Phi d2], the put is
    [K * exp (- r T) * Phi (- d2) - S * Phi (- d1)], with
    [d1 = (ln (S / K) + (r + sigma^2 / 2) T) / (sigma sqrt T)],
    [d2 = d1 - sigma sqrt T] and [Phi] the standard normal distribution
    function [norm_cdf]. *)
Theorem black_scholes_closed_form (S K T r sigma : R) :
  0 < S -> 0 < K -> 0 < T -> 0 < sigma ->
  let x1 := (ln (S / K) + (r + sigma ^ 2 / 2) * T) / (sigma * sqrt T) in
  let x2 := x1 - sigma * sqrt T in
  black_scholes S K T r sigma "call"
    = Returns (Some (S * norm_cdf x1 - K * exp (- r * T) * norm_cdf x2))
  /\ black_scholes S K T r sigma "put"
    = Returns (Some (K * exp (- r * T) * norm_cdf (- x2) - S * norm_cdf (- x1))).
Proof.
  intros HS HK HT Hs x1 x2. split.
  - now apply black_scholes_call_valid.
  - now apply black_scholes_put_valid.
Qed.

Lemma black_scholes_closed_form_witness :
  black_scholes 100 100 1 0.05 0.2 "call"
    = Returns (Some (call_value 100 100 1 0.05 0.2))
  /\ black_scholes 100 100 1 0.05 0.2 "put"
    = Returns (Some (put_value 100 100 1 0.05 0.2)).
Proof.
  apply (black_scholes_closed_form 100 100 1 0.05 0.2); lra.
Defined.

(** C3, as the code has it.  A kind other than ['call'] and ['put']
    makes no branch of the [if] fire: the call returns Python's [None]
    without raising anything, unless the strike is zero, when [S / K] has
    already raised [ZeroDivisionError]. *)
Theorem black_scholes_unknown_kind (S K T r sigma : R) (kind : string) :
  kind <> "call"%string -> kind <> "put"%string ->
  black_scholes S K T r sigma kind
    = if Req_dec_T K 0 then Raises ZeroDivisionError else ReturnsNone.
Proof.
  intros Hc Hp. unfold black_scholes.
  destruct (Req_dec_T K 0); [reflexivity | ].
  apply String.eqb_neq in Hc, Hp. now rewrite Hc, Hp.
Qed.

Lemma black_scholes_unknown_kind_witness :
  black_scholes 100 100 1 0.05 0.2 "straddle"
    = if Req_dec_T 100 0 then Raises ZeroDivisionError else ReturnsNone.
Proof.
  apply (black_scholes_unknown_kind 100 100 1 0.05 0.2 "straddle"); discriminate.
Defined.

(** C3, as the claim states it, fails: pricing a ["straddle"] on the
    reference inputs raises no invalid-argument error, it returns [None]. *)
Lemma black_scholes_straddle_returns_none :
  black_scholes 100 100 1 0.05 0.2 "straddle" = ReturnsNone
  /\ ~ (exists e, black_scholes 100 100 1 0.05 0.2 "straddle" = Raises e).
Proof.
  assert (H : black_scholes 100 100 1 0.05 0.2 "straddle" = ReturnsNone).
  { unfold black_scholes. destruct (Req_dec_T 100 0); [lra | reflexivity]. }
  split; [exact H | intros [e He]; rewrite H in He; discriminate].
Qed.

Lemma is_neg_nonneg (x : R) : 0 <= x -> is_neg (Fin x) = false.
Proof.
  intros [Hx | <-]; cbn [is_neg];
    [now rewrite sign_of_positive | now rewrite sign_of_zero].
Qed.

Lemma is_neg_negative (x : R) : x < 0 -> is_neg (Fin x) = true.
Proof. intros Hx. cbn [is_neg]. now rewrite sign_of_negative. Qed.

(** The numerator of [d1]. *)
Definition d1_numerator (S K T r sigma : R) : R :=
  ln (S / K) + (r + sigma ^ 2 / 2) * T.

(** With a zero volatility or maturity the divisor is [+0.0] and [d1]
    is the quotient of its numerator by it. *)
Lemma d1_zero_divisor (S K T r sigma : R) :
  0 < S -> 0 < K -> 0 <= T -> 0 <= sigma -> sigma = 0 \/ T = 0 ->
  sigma * sqrt T = 0
  /\ xmul sigma (np_sqrt T) = Fin 0
  /\ d1 S K T r sigma = xdiv (Fin (d1_numerator S K T r sigma)) (Fin 0).
Proof.
  intros HS HK HT Hs Hz.
  assert (Hden : sigma * sqrt T = 0).
  { destruct Hz as [-> | ->]; [ | rewrite sqrt_0]; ring. }
  assert (Hmul : xmul sigma (np_sqrt T) = Fin 0).
  { rewrite np_sqrt_nonneg by exact HT. unfold xmul.
    destruct (Req_dec_T (sigma * sqrt T) 0) as [_ | Hn]; [ | contradiction].
    rewrite (is_neg_nonneg sigma Hs), (is_neg_nonneg (sqrt T) (sqrt_pos T)).
    reflexivity. }
  split_conj; [exact Hden | exact Hmul | ].
  unfold d1. rewrite Hmul, np_log_positive by now apply ratio_pos.
  cbn [xadd]. do 2 f_equal. unfold d1_numerator. lra.
Qed.

Lemma xdiv_by_zero (n : R) :
  (0 < n -> xdiv (Fin n) (Fin 0) = PosInf)
  /\ (n < 0 -> xdiv (Fin n) (Fin 0) = NegInf)
  /\ (n = 0 -> xdiv (Fin n) (Fin 0) = NaN).
Proof.
  unfold xdiv. cbn [value].
  destruct (Req_dec_T 0 0) as [_ | H0]; [ | now elim H0].
  split_conj; intros Hn.
  - destruct (Req_dec_T n 0); [lra | ].
    now rewrite (is_neg_nonneg n), (is_neg_nonneg 0) by lra.
  - destruct (Req_dec_T n 0); [lra | ].
    now rewrite (is_neg_negative n), (is_neg_nonneg 0) by lra.
  - destruct (Req_dec_T n 0); [reflexivity | contradiction].
Qed.

(** C7, as the code has it.  With [S], [K], [T], [sigma] positive the
    divisor [sigma * sqrt T] is not zero and the argument [S / K] of the
    logarithm is positive, so both prices are real numbers.  With
    [sigma = 0] or [T = 0] (the other inputs valid) the divisor is zero,
    nothing is raised and [d1] is not a real number: it is [inf], [-inf]
    or [nan] as the numerator [ln (S / K) + (r + sigma^2 / 2) T] is
    positive, negative or zero.  The call then returns [S - K exp (- r T)]
    and the put [0] under a positive numerator, the call [0] and the put
    [K exp (- r T) - S] under a negative one, and both return [nan] under
    a zero one. *)
Theorem black_scholes_defined (S K T r sigma : R) :
  (0 < S -> 0 < K -> 0 < T -> 0 < sigma ->
   sigma * sqrt T <> 0 /\ 0 < S / K
   /\ (exists c, black_scholes S K T r sigma "call" = Returns (Some c))
   /\ (exists p, black_scholes S K T r sigma "put" = Returns (Some p)))
  /\ (0 < S -> 0 < K -> 0 <= T -> 0 <= sigma -> sigma = 0 \/ T = 0 ->
      sigma * sqrt T = 0
      /\ (0 < d1_numerator S K T r sigma ->
          d1 S K T r sigma = PosInf
          /\ black_scholes S K T r sigma "call"
             = Returns (Some (S - K * exp (- r * T)))
          /\ black_scholes S K T r sigma "put" = Returns (Some 0))
      /\ (d1_numerator S K T r sigma < 0 ->
          d1 S K T r sigma = NegInf
          /\ black_scholes S K T r sigma "call" = Returns (Some 0)
          /\ black_scholes S K T r sigma "put"
             = Returns (Some (K * exp (- r * T) - S)))
      /\ (d1_numerator S K T r sigma = 0 ->
          d1 S K T r sigma = NaN
          /\ black_scholes S K T r sigma "call" = Returns None
          /\ black_scholes S K T r sigma "put" = Returns None)).
Proof.
  split.
  - intros HS HK HT Hs. split_conj.
    + pose proof (denominator_pos T sigma HT Hs). lra.
    + now apply ratio_pos.
    + eexists. now apply black_scholes_call_valid.
    + eexists. now apply black_scholes_put_valid.
  - intros HS HK HT Hs Hz.
    destruct (d1_zero_divisor S K T r sigma HS HK HT Hs Hz) as (Hden & Hmul & Hd1).
    destruct (xdiv_by_zero (d1_numerator S K T r sigma)) as (Hpos & Hneg & Hnul).
    split; [exact Hden | ].
    unfold black_scholes, d2.
    destruct (Req_dec_T K 0) as [HK0 | _]; [lra | ].
    cbn [String.eqb Ascii.eqb Bool.eqb]. rewrite Hmul, Hd1.
    split_conj; intros Hn.
    + rewrite (Hpos Hn). cbn [xsub xneg cdf bind].
      split_conj; [reflexivity | do 2 f_equal; ring | do 2 f_equal; ring].
    + rewrite (Hneg Hn). cbn [xsub xneg cdf bind].
      split_conj; [reflexivity | do 2 f_equal; ring | do 2 f_equal; ring].
    + rewrite (Hnul Hn). cbn [xsub xneg cdf bind].
      split_conj; reflexivity.
Qed.

Lemma d1_numerator_reference_zero_volatility :
  0 < d1_numerator 100 100 1 0.05 0.
Proof.
  unfold d1_numerator. replace (100 / 100) with 1 by lra. rewrite ln_1. lra.
Qed.

Lemma black_scholes_defined_witness :
  0.2 * sqrt 1 <> 0
  /\ black_scholes 100 100 1 0.05 0 "call"
     = Returns (Some (100 - 100 * exp (- (0.05) * 1))).
Proof.
  split.
  - apply (proj1 (black_scholes_defined 100 100 1 0.05 0.2)); lra.
  - destruct (proj2 (black_scholes_defined 100 100 1 0.05 0)
                ltac:(lra) ltac:(lra) ltac:(lra) ltac:(lra) (or_introl eq_refl))
      as (_ & Hpos & _).
    exact (proj1 (proj2 (Hpos d1_numerator_reference_zero_volatility))).
Defined.

(** C7, as the claim states it, fails: with a zero volatility on the
    reference inputs the division by zero raises nothing, [d1] is [inf]
    and the call returns the real number [100 - 100 exp (- 0.05)]; with a
    zero maturity, spot 150 and strike 100 it returns 50. *)
Lemma black_scholes_zero_volatility_is_finite :
  d1 100 100 1 0.05 0 = PosInf
  /\ black_scholes 100 100 1 0.05 0 "call"
     = Returns (Some (100 - 100 * exp (- (0.05) * 1)))
  /\ black_scholes 150 100 0 0.05 0.2 "call" = Returns (Some 50).
Proof.
  assert (Hn : 0 < d1_numerator 150 100 0 0.05 0.2).
  { unfold d1_numerator. rewrite Rmult_0_r, Rplus_0_r.
    rewrite <- ln_1. apply ln_increasing; lra. }
  assert (H0 : forall S K T r sigma,
             0 < S -> 0 < K -> 0 <= T -> 0 <= sigma -> sigma = 0 \/ T = 0 ->
             0 < d1_numerator S K T r sigma ->
             d1 S K T r sigma = PosInf
             /\ black_scholes S K T r sigma "call"
                = Returns (Some (S * 1 - K * exp (- r * T) * 1))).
  { intros S K T r sigma HS HK HT Hs Hz Hpos.
    destruct (d1_zero_divisor S K T r sigma HS HK HT Hs Hz) as (_ & Hmul & Hd1).
    rewrite (proj1 (xdiv_by_zero _) Hpos) in Hd1.
    split; [exact Hd1 | ].
    unfold black_scholes, d2.
    destruct (Req_dec_T K 0) as [HK0 | _]; [lra | ].
    cbn [String.eqb Ascii.eqb Bool.eqb]. now rewrite Hmul, Hd1. }
  destruct (H0 100 100 1 0.05 0 ltac:(lra) ltac:(lra) ltac:(lra) ltac:(lra)
              (or_introl eq_refl) d1_numerator_reference_zero_volatility)
    as [Hd Hc].
  destruct (H0 150 100 0 0.05 0.2 ltac:(lra) ltac:(lra) ltac:(lra) ltac:(lra)
              (or_intror eq_refl) Hn) as [_ Hc'].
  split_conj.
  - exact Hd.
  - rewrite Hc. do 2 f_equal. ring.
  - rewrite Hc'. do 2 f_equal. rewrite Rmult_0_r, exp_0. ring.
Qed.




(** C10.  A call that leaves the kind out is the call with kind
    ['call']: the parameter's default. *)
Theorem black_scholes_default_kind (S K T r sigma : R) :
  black_scholes_call S K T r sigma None = black_scholes S K T r sigma "call"
  /\ black_scholes_call S K T r sigma None
     = black_scholes_call S K T r sigma (Some "call"%string).
Proof.
  split; reflexivity.
Qed.

(** ** Assignment into lists and grids *)

Lemma list_set_spec {A : Type} (v : A) (l : list A) :
  forall i, (i < length l)%nat ->
  exists l', list_set i v l = Some l'
    /\ length l' = length l
    /\ nth_error l' i = Some v
    /\ forall k, k <> i -> nth_error l' k = nth_error l k.
Proof.
  induction l as [ | h t IH]; intros i Hi; [cbn in Hi; lia | ].
  destruct i as [ | i].
  - exists (v :: t). cbn. repeat split.
    intros [ | k] Hk; [congruence | reflexivity].
  - cbn in Hi. destruct (IH i ltac:(lia)) as (t' & Hset & Hlen & Hget & Hother).
    exists (h :: t'). cbn. rewrite Hset. cbn. repeat split.
    + now rewrite Hlen.
    + exact Hget.
    + intros [ | k] Hk; [reflexivity | cbn; apply Hother; lia].
Qed.

Lemma list_set_Forall {A : Type} (P : A -> Prop) (v : A) (l : list A) :
  forall i l', list_set i v l = Some l' -> Forall P l -> P v -> Forall P l'.
Proof.
  induction l as [ | h t IH]; intros i l' Hset Hall Hv; [destruct i; discriminate | ].
  inversion Hall as [ | ? ? Hh Ht]; subst.
  destruct i as [ | i]; cbn in Hset.
  - injection Hset as <-. now constructor.
  - destruct (list_set i v t) as [t' | ] eqn:E; cbn in Hset; [ | discriminate].
    injection Hset as <-. constructor; [exact Hh | now apply (IH i)].
Qed.

(** A grid of [n] rows of [m] cells. *)
Definition shape (n m : nat) (g : grid) : Prop :=
  length g = n /\ Forall (fun row => length row = m) g.

Lemma zeros_shape (n m : nat) : shape n m (zeros n m).
Proof.
  unfold shape, zeros. split; [apply repeat_length | ].
  apply Forall_forall. intros row Hin.
  apply repeat_spec in Hin. subst. apply repeat_length.
Qed.

Lemma shape_row (n m : nat) (g : grid) (i : nat) (row : list (option R)) :
  shape n m g -> nth_error g i = Some row -> length row = m.
Proof.
  intros [_ Hall] Hrow. apply nth_error_In in Hrow.
  now apply (proj1 (Forall_forall _ _) Hall).
Qed.

Lemma setitem_spec (n m : nat) (g : grid) (i j : nat) (v : option R) :
  shape n m g -> (i < n)%nat -> (j < m)%nat ->
  exists g', setitem g i j v = Some g'
    /\ shape n m g'
    /\ getitem g' i j = Some v
    /\ forall a b, a <> i \/ b <> j -> getitem g' a b = getitem g a b.
Proof.
  intros Hsh Hi Hj. pose proof Hsh as [Hlen Hall].
  destruct (nth_error g i) as [row | ] eqn:Hrow;
    [ | apply nth_error_None in Hrow; lia].
  pose proof (shape_row n m g i row Hsh Hrow) as Hm.
  destruct (list_set_spec v row j ltac:(lia)) as (row' & Hs1 & Hl1 & Hg1 & Ho1).
  destruct (list_set_spec row' g i ltac:(lia)) as (g' & Hs2 & Hl2 & Hg2 & Ho2).
  exists g'. unfold setitem, getitem. rewrite Hrow. cbn [bind].
  rewrite Hs1. cbn [bind]. rewrite Hs2, Hg2. cbn [bind].
  repeat split.
  - lia.
  - apply (list_set_Forall _ row' g i g' Hs2 Hall). lia.
  - exact Hg1.
  - intros a b Hab. destruct (Nat.eq_dec a i) as [-> | Hai].
    + rewrite Hg2, Hrow. cbn [bind]. apply Ho1. lia.
    + now rewrite (Ho2 a Hai).
Qed.

(** ** The two loops *)

Section SweepSpec.

Variables K T r : R.
Hypothesis K_nonzero : K <> 0.

Definition kind_name (c : bool) : string := if c then "call" else "put".

Definition prices (c : bool) (st : sweep_state) : grid :=
  if c then call_prices st else put_prices st.

(** The float a call returns. *)
Definition price_float (S sigma : R) (c : bool) : option R :=
  match black_scholes S K T r sigma (kind_name c) with
  | Returns v => v
  | _ => None
  end.

(** The calls one cell costs, in the order they are made. *)
Definition calls_of (sigma S : R) : list invocation :=
  [(S, sigma, "call"%string); (S, sigma, "put"%string)].

Lemma black_scholes_returns (S sigma : R) (c : bool) :
  black_scholes S K T r sigma (kind_name c) = Returns (price_float S sigma c).
Proof.
  unfold price_float, black_scholes.
  destruct (Req_dec_T K 0); [contradiction | ].
  destruct c; reflexivity.
Qed.

Lemma price_cell_spec (n m i j : nat) (sigma S : R) (st : sweep_state) :
  (forall c, shape n m (prices c st)) -> (i < n)%nat -> (j < m)%nat ->
  exists st', price_cell K T r i sigma (j, S) st = Some st'
    /\ (forall c, shape n m (prices c st'))
    /\ (forall c, getitem (prices c st') i j = Some (price_float S sigma c))
    /\ (forall c a b, a <> i \/ b <> j ->
          getitem (prices c st') a b = getitem (prices c st) a b)
    /\ invocations st' = invocations st ++ calls_of sigma S.
Proof.
  intros Hsh Hi Hj.
  destruct (setitem_spec n m (call_prices st) i j (price_float S sigma true)
              (Hsh true) Hi Hj) as (cp & Hc1 & Hc2 & Hc3 & Hc4).
  destruct (setitem_spec n m (put_prices st) i j (price_float S sigma false)
              (Hsh false) Hi Hj) as (pp & Hp1 & Hp2 & Hp3 & Hp4).
  exists (mkState cp pp (invocations st ++ calls_of sigma S)).
  unfold price_cell. cbn [fst snd].
  pose proof (black_scholes_returns S sigma true) as Hcall.
  pose proof (black_scholes_returns S sigma false) as Hput.
  cbn [kind_name] in Hcall, Hput. rewrite Hcall, Hput.
  cbn [as_float bind]. rewrite Hc1. cbn [bind]. rewrite Hp1. cbn [bind].
  split_conj.
  - reflexivity.
  - intros [ | ]; assumption.
  - intros [ | ]; assumption.
  - intros [ | ] a b Hab; cbn; [now apply Hc4 | now apply Hp4].
  - reflexivity.
Qed.

(** The inner loop over the spots from column [k] on. *)
Lemma inner_loop_spec (n m i : nat) (sigma : R) :
  forall (l : list R) (k : nat) (st : sweep_state),
  (forall c, shape n m (prices c st)) -> (i < n)%nat -> (k + length l <= m)%nat ->
  exists st',
    for_each (price_cell K T r i sigma) (combine (seq k (length l)) l) st = Some st'
    /\ (forall c, shape n m (prices c st'))
    /\ (forall c t S, nth_error l t = Some S ->
          getitem (prices c st') i (k + t) = Some (price_float S sigma c))
    /\ (forall c a b, a <> i \/ (b < k)%nat \/ (k + length l <= b)%nat ->
          getitem (prices c st') a b = getitem (prices c st) a b)
    /\ invocations st' = invocations st ++ flat_map (calls_of sigma) l.
Proof.
  induction l as [ | S l IH]; intros k st Hsh Hi Hk.
  - exists st. cbn. split_conj; try assumption; try reflexivity.
    + intros c [ | t] S' H; discriminate.
    + now rewrite app_nil_r.
  - cbn [length] in Hk.
    destruct (price_cell_spec n m i k sigma S st Hsh Hi ltac:(lia))
      as (st1 & Hrun1 & Hsh1 & Hget1 & Hoth1 & Hinv1).
    destruct (IH (Datatypes.S k) st1 Hsh1 Hi ltac:(lia))
      as (st2 & Hrun2 & Hsh2 & Hget2 & Hoth2 & Hinv2).
    exists st2. cbn [length seq combine for_each]. rewrite Hrun1. cbn [bind].
    split_conj.
    + exact Hrun2.
    + exact Hsh2.
    + intros c [ | t] S' Ht.
      * cbn in Ht. injection Ht as <-. rewrite Nat.add_0_r.
        rewrite Hoth2 by lia. apply Hget1.
      * cbn in Ht. replace (k + Datatypes.S t)%nat with (Datatypes.S k + t)%nat by lia.
        now apply Hget2.
    + intros c a b Hab. rewrite Hoth2 by lia. apply Hoth1. lia.
    + rewrite Hinv2, Hinv1. cbn [flat_map]. now rewrite <- app_assoc.
Qed.

(** The calls of a whole sweep, row by row. *)
Definition all_calls (spots volatilities : list R) : list invocation :=
  flat_map (fun sigma => flat_map (calls_of sigma) spots) volatilities.

(** The outer loop over the volatilities from row [k] on. *)
Lemma outer_loop_spec (n : nat) (spots : list R) :
  forall (vs : list R) (k : nat) (st : sweep_state),
  (forall c, shape n (length spots) (prices c st)) -> (k + length vs <= n)%nat ->
  exists st',
    for_each (fun isigma : nat * R =>
                let '(i, sigma) := isigma in
                for_each (price_cell K T r i sigma) (enumerate spots))
             (combine (seq k (length vs)) vs) st = Some st'
    /\ (forall c, shape n (length spots) (prices c st'))
    /\ (forall c t sigma j S,
          nth_error vs t = Some sigma -> nth_error spots j = Some S ->
          getitem (prices c st') (k + t) j = Some (price_float S sigma c))
    /\ (forall c a b, (a < k)%nat \/ (k + length vs <= a)%nat ->
          getitem (prices c st') a b = getitem (prices c st) a b)
    /\ invocations st' = invocations st ++ all_calls spots vs.
Proof.
  induction vs as [ | sigma vs IH]; intros k st Hsh Hk.
  - exists st. cbn. split_conj; try assumption; try reflexivity.
    + intros c [ | t] s j S H; discriminate.
    + now rewrite app_nil_r.
  - cbn [length] in Hk.
    destruct (inner_loop_spec n (length spots) k sigma spots 0%nat st Hsh
                ltac:(lia) ltac:(lia))
      as (st1 & Hrun1 & Hsh1 & Hget1 & Hoth1 & Hinv1).
    destruct (IH (Datatypes.S k) st1 Hsh1 ltac:(lia))
      as (st2 & Hrun2 & Hsh2 & Hget2 & Hoth2 & Hinv2).
    exists st2. cbn [length seq combine for_each].
    unfold enumerate at 1. rewrite Hrun1. cbn [bind].
    split_conj.
    + exact Hrun2.
    + exact Hsh2.
    + intros c [ | t] s j S Ht Hj.
      * cbn in Ht. injection Ht as <-. rewrite Nat.add_0_r.
        rewrite Hoth2 by lia. apply (Hget1 c j S Hj).
      * cbn in Ht. replace (k + Datatypes.S t)%nat with (Datatypes.S k + t)%nat by lia.
        now apply Hget2.
    + intros c a b Hab. rewrite Hoth2 by lia. apply Hoth1. lia.
    + rewrite Hinv2, Hinv1. unfold all_calls. cbn [flat_map].
      now rewrite <- app_assoc.
Qed.

End SweepSpec.

(** ** The samples of [linspace] *)

(** Sample [i] of [num] evenly spaced points from [start] to [stop]. *)
Definition sample (start stop : R) (num i : nat) : R :=
  start + INR i * (stop - start) / INR (num - 1).

Lemma set_last_length (v : R) (l : list R) : length (set_last v l) = length l.
Proof.
  induction l as [ | x [ | y t] IH]; [reflexivity | reflexivity | ].
  change (set_last v (x :: y :: t)) with (x :: set_last v (y :: t)).
  cbn [length] in *. now rewrite IH.
Qed.

Lemma set_last_snoc (v x : R) (l : list R) : set_last v (l ++ [x]) = l ++ [v].
Proof.
  induction l as [ | y t IH]; [reflexivity | ].
  cbn [app]. destruct (t ++ [x]) as [ | z u] eqn:E.
  - destruct t; discriminate.
  - change (set_last v (y :: z :: u)) with (y :: set_last v (z :: u)).
    now rewrite IH.
Qed.

Lemma linspace_length (start stop : R) (num : nat) :
  length (linspace start stop num) = num.
Proof.
  unfold linspace.
  assert (H : forall f g : R -> R,
             length (map g (map f (map INR (seq 0 num)))) = num).
  { intros f g. now rewrite !length_map, length_seq. }
  destruct (0 <? num - 1)%nat; [destruct (Req_dec_T _ 0) | ];
    destruct (1 <? num)%nat; rewrite ?set_last_length; apply H.
Qed.

(** From two samples on, [linspace] is the list of the evenly spaced
    points, both ends included. *)
Lemma linspace_samples (start stop : R) (num : nat) :
  (2 <= num)%nat ->
  linspace start stop num = map (sample start stop num) (seq 0 num).
Proof.
  intros Hnum. unfold linspace.
  destruct (Nat.ltb_spec 0 (num - 1)) as [_ | Hdiv]; [ | lia].
  destruct (Nat.ltb_spec 1 num) as [_ | H1]; [ | lia].
  assert (Hd : INR (num - 1) <> 0) by (apply not_0_INR; lia).
  assert (Hpre : (if Req_dec_T ((stop - start) / INR (num - 1)) 0
                  then map (fun v => v / INR (num - 1) * (stop - start))
                           (map INR (seq 0 num))
                  else map (fun v => v * ((stop - start) / INR (num - 1)))
                           (map INR (seq 0 num)))
                 = map (fun i => INR i * (stop - start) / INR (num - 1)) (seq 0 num)).
  { destruct (Req_dec_T _ 0); rewrite map_map; apply map_ext; intros i; field; exact Hd. }
  rewrite Hpre, map_map.
  destruct num as [ | k]; [lia | ].
  rewrite !seq_S, !map_app. cbn [map Nat.add]. rewrite set_last_snoc.
  f_equal.
  - apply map_ext. intros i. unfold sample. lra.
  - f_equal. unfold sample. replace (Datatypes.S k - 1)%nat with k in * by lia.
    field. exact Hd.
Qed.

Lemma linspace_nth (start stop : R) (num i : nat) :
  (2 <= num)%nat -> (i < num)%nat ->
  nth_error (linspace start stop num) i = Some (sample start stop num i).
Proof.
  intros Hnum Hi. rewrite linspace_samples by exact Hnum.
  rewrite nth_error_map, nth_error_seq.
  destruct (Nat.ltb_spec i num); [reflexivity | lia].
Qed.

Lemma sample_first (start stop : R) (num : nat) : sample start stop num 0 = start.
Proof. unfold sample. cbn [INR]. lra. Qed.

Lemma sample_last (start stop : R) (num : nat) :
  (2 <= num)%nat -> sample start stop num (num - 1) = stop.
Proof.
  intros Hnum. unfold sample. field. apply not_0_INR. lia.
Qed.


Lemma sample_increasing (start stop : R) (num i j : nat) :
  (2 <= num)%nat -> start <= stop -> (i <= j)%nat ->
  sample start stop num i <= sample start stop num j.
Proof.
  intros Hnum Hle Hij. unfold sample.
  assert (Hd : 0 < INR (num - 1)) by (apply lt_0_INR; lia).
  apply le_INR in Hij.
  apply Rplus_le_compat_l. unfold Rdiv.
  apply Rmult_le_compat_r; [left; now apply Rinv_0_lt_compat | ].
  apply Rmult_le_compat_r; lra.
Qed.

Lemma sample_strictly_increasing (start stop : R) (num i j : nat) :
  (2 <= num)%nat -> start < stop -> (i < j)%nat ->
  sample start stop num i < sample start stop num j.
Proof.
  intros Hnum Hlt Hij. unfold sample.
  assert (Hd : 0 < INR (num - 1)) by (apply lt_0_INR; lia).
  apply lt_INR in Hij.
  apply Rplus_lt_compat_l. unfold Rdiv.
  apply Rmult_lt_compat_r; [now apply Rinv_0_lt_compat | ].
  apply Rmult_lt_compat_r; lra.
Qed.

(** ** The sweep as a whole *)


Lemma sweep_spec (K T r : R) (steps : nat) (lo_s hi_s lo_v hi_v : R) :
  K <> 0 ->
  let spots := linspace lo_s hi_s steps in
  let volatilities := linspace lo_v hi_v steps in
  exists st,
    sweep K T r steps lo_s hi_s lo_v hi_v = Some st
    /\ (forall c, shape steps steps (prices c st))
    /\ (forall c i sigma j S,
          nth_error volatilities i = Some sigma -> nth_error spots j = Some S ->
          getitem (prices c st) i j = Some (price_float K T r S sigma c))
    /\ invocations st = all_calls spots volatilities.
Proof.
  intros HK spots volatilities.
  assert (Hls : length spots = steps) by apply linspace_length.
  assert (Hlv : length volatilities = steps) by apply linspace_length.
  destruct (outer_loop_spec K T r HK steps spots volatilities 0%nat
              (mkState (zeros steps steps) (zeros steps steps) []))
    as (st & Hrun & Hsh & Hget & _ & Hinv).
  - intros [ | ]; cbn [prices call_prices put_prices];
      rewrite Hls; apply zeros_shape.
  - lia.
  - exists st. split_conj.
    + unfold sweep, fill_grids. fold spots volatilities.
      rewrite Hls, Hlv. exact Hrun.
    + intros c. specialize (Hsh c). now rewrite Hls in Hsh.
    + intros c i sigma j S Hi Hj. exact (Hget c i sigma j S Hi Hj).
    + exact Hinv.
Qed.

(** C4.  With a non-zero strike the program's sweep over spots 50 to 150
    and volatilities 0.1 to 0.5 ends with two grids of 10 rows of 10
    cells; the cell of row [i] and column [j] holds what the pricer
    returns for the [j]-th spot and the [i]-th volatility, the samples
    grow along both axes, cell [0][0] is the price at spot 50 and
    volatility 0.1 and cell [9][9] the price at spot 150 and volatility
    0.5. *)
Theorem heatmap_sweep_grids (K T r : R) :
  K <> 0 ->
  exists st,
    heatmap_sweep K T r 50 150 0.1 0.5 = Some st
    /\ shape 10 10 (call_prices st) /\ shape 10 10 (put_prices st)
    /\ (forall i j, (i < 10)%nat -> (j < 10)%nat ->
          getitem (call_prices st) i j
            = as_float (black_scholes (sample 50 150 10 j) K T r
                          (sample 0.1 0.5 10 i) "call")
          /\ getitem (put_prices st) i j
            = as_float (black_scholes (sample 50 150 10 j) K T r
                          (sample 0.1 0.5 10 i) "put"))
    /\ (forall i j, (i < j)%nat ->
          sample 50 150 10 i < sample 50 150 10 j
          /\ sample 0.1 0.5 10 i < sample 0.1 0.5 10 j)
    /\ getitem (call_prices st) 0 0 = as_float (black_scholes 50 K T r 0.1 "call")
    /\ getitem (put_prices st) 0 0 = as_float (black_scholes 50 K T r 0.1 "put")
    /\ getitem (call_prices st) 9 9 = as_float (black_scholes 150 K T r 0.5 "call")
    /\ getitem (put_prices st) 9 9 = as_float (black_scholes 150 K T r 0.5 "put").
Proof.
  intros HK.
  destruct (sweep_spec K T r 10 50 150 0.1 0.5 HK) as (st & Hrun & Hsh & Hget & _).
  assert (Hcell : forall c i j, (i < 10)%nat -> (j < 10)%nat ->
            getitem (prices c st) i j
            = as_float (black_scholes (sample 50 150 10 j) K T r
                          (sample 0.1 0.5 10 i) (kind_name c))).
  { intros c i j Hi Hj.
    rewrite (Hget c i (sample 0.1 0.5 10 i) j (sample 50 150 10 j))
      by (apply linspace_nth; lia).
    now rewrite black_scholes_returns. }
  exists st. split_conj.
  - exact Hrun.
  - exact (Hsh true).
  - exact (Hsh false).
  - intros i j Hi Hj. split; [exact (Hcell true i j Hi Hj) | exact (Hcell false i j Hi Hj)].
  - intros i j Hij. split; apply sample_strictly_increasing; (lia || lra).
  - pose proof (Hcell true 0%nat 0%nat ltac:(lia) ltac:(lia)) as H.
    now rewrite !sample_first in H.
  - pose proof (Hcell false 0%nat 0%nat ltac:(lia) ltac:(lia)) as H.
    now rewrite !sample_first in H.
  - pose proof (Hcell true (10 - 1)%nat (10 - 1)%nat ltac:(lia) ltac:(lia)) as H.
    now rewrite !sample_last in H by lia.
  - pose proof (Hcell false (10 - 1)%nat (10 - 1)%nat ltac:(lia) ltac:(lia)) as H.
    now rewrite !sample_last in H by lia.
Qed.

Lemma heatmap_sweep_grids_witness :
  exists st, heatmap_sweep 100 1 0.05 50 150 0.1 0.5 = Some st
             /\ shape 10 10 (call_prices st).
Proof.
  destruct (heatmap_sweep_grids 100 1 0.05 ltac:(lra)) as (st & Hrun & Hsh & _).
  exists st. split; [exact Hrun | exact Hsh].
Defined.



(** ** The derivative of an integral *)

Section PrimitiveFacts.
Variable f : R -> R.
Hypothesis f_cont : continuity f.

Lemma integral_chasles (a b c : R) :
  integral f f_cont a b + integral f f_cont b c = integral f f_cont a c.
Proof. unfold integral. apply RiemannInt_P26. Qed.

Lemma integral_same (a : R) : integral f f_cont a a = 0.
Proof. unfold integral. apply RiemannInt_P9. Qed.

Lemma primitive_integral (a b : R) (h : a <= b)
  (C0 : forall x, a <= x <= b -> continuity_pt f x) (z : R) :
  a <= z <= b -> primitive h (FTC_P1 h C0) z = integral f f_cont a z.
Proof.
  intros [Haz Hzb]. unfold primitive, integral.
  destruct (Rle_dec a z) as [H1 | H1]; [ | contradiction].
  destruct (Rle_dec z b) as [H2 | H2]; [ | contradiction].
  apply RiemannInt_P5.
Qed.

Lemma integral_derivative (x : R) :
  derivable_pt_lim (fun y => integral f f_cont 0 y) x (f x).
Proof.
  set (a := Rmin 0 x - 1). set (b := Rmax 0 x + 1).
  pose proof (Rmin_l 0 x). pose proof (Rmin_r 0 x).
  pose proof (Rmax_l 0 x). pose proof (Rmax_r 0 x).
  assert (h : a <= b) by (unfold a, b; lra).
  assert (C0 : forall y, a <= y <= b -> continuity_pt f y) by (intros; apply f_cont).
  assert (Hx : a < x < b) by (unfold a, b; lra).
  pose proof (RiemannInt_P27 h C0 Hx) as Hd.
  apply (derivable_pt_lim_locally_ext
           (fun y => primitive h (FTC_P1 h C0) y - integral f f_cont a 0) _ x a b).
  - exact Hx.
  - intros z Hz. rewrite primitive_integral by lra.
    rewrite <- (integral_chasles a 0 z). ring.
  - replace (f x) with (f x - 0) by ring.
    apply derivable_pt_lim_minus; [exact Hd | apply derivable_pt_lim_const].
Qed.

End PrimitiveFacts.

(** ** The error function and the normal distribution function *)

(** Monotonicity from the sign of the derivative. *)
Lemma increasing_of_derivative (f f' : R -> R) (a b : R) :
  a <= b ->
  (forall c, a <= c <= b -> derivable_pt_lim f c (f' c)) ->
  (forall c, a <= c <= b -> 0 <= f' c) ->
  f a <= f b.
Proof.
  intros [Hab | ->] Hd Hpos; [ | lra].
  destruct (MVT_cor2 f f' a b Hab Hd) as (c & Heq & Hc).
  assert (0 <= f' c) by (apply Hpos; lra).
  assert (0 <= f' c * (b - a)) by (apply Rmult_le_pos; lra).
  lra.
Qed.

Lemma constant_of_derivative (f : R -> R) (a b : R) :
  (forall c, derivable_pt_lim f c 0) -> f a = f b.
Proof.
  intros Hd.
  assert (H : forall u v, u < v -> f u = f v).
  { intros u v Huv.
    destruct (MVT_cor2 f (fun _ => 0) u v Huv (fun c _ => Hd c)) as (c & Heq & _).
    lra. }
  destruct (Rtotal_order a b) as [Hlt | [-> | Hgt]];
    [now apply H | reflexivity | symmetry; now apply H].
Qed.

(** The integral in [erf]. *)
Definition erf_integral (z : R) : R :=
  integral erf_integrand erf_integrand_continuity 0 z.

Lemma erf_integral_derivative (z : R) :
  derivable_pt_lim erf_integral z (exp (- z ^ 2)).
Proof. exact (integral_derivative erf_integrand erf_integrand_continuity z). Qed.

Lemma erf_integral_0 : erf_integral 0 = 0.
Proof. apply integral_same. Qed.

Lemma erf_integral_odd (z : R) : erf_integral (- z) = - erf_integral z.
Proof.
  assert (Hd : forall c, derivable_pt_lim
                 (fun y => erf_integral y + erf_integral (- y)) c 0).
  { intros c.
    replace 0 with (exp (- c ^ 2) + exp (- (- c) ^ 2) * (-1)).
    - apply derivable_pt_lim_plus; [apply erf_integral_derivative | ].
      apply (derivable_pt_lim_comp Ropp erf_integral).
      + replace (-1) with (- 1) by ring.
        apply derivable_pt_lim_opp. apply derivable_pt_lim_id.
      + apply erf_integral_derivative.
    - replace ((- c) ^ 2) with (c ^ 2) by ring. ring. }
  pose proof (constant_of_derivative _ z 0 Hd) as H. cbn beta in H.
  rewrite Ropp_0, erf_integral_0 in H. lra.
Qed.

Lemma erf_odd (z : R) : erf (- z) = - erf z.
Proof.
  unfold erf. fold (erf_integral (- z)) (erf_integral z).
  rewrite erf_integral_odd. ring.
Qed.

Lemma norm_cdf_opp (x : R) : norm_cdf (- x) = 1 - norm_cdf x.
Proof.
  unfold norm_cdf.
  replace (- x / sqrt 2) with (- (x / sqrt 2)) by (unfold Rdiv; ring).
  rewrite erf_odd. lra.
Qed.

Lemma norm_cdf_0 : norm_cdf 0 = 1 / 2.
Proof.
  unfold norm_cdf, erf. replace (0 / sqrt 2) with 0 by (unfold Rdiv; ring).
  fold (erf_integral 0). rewrite erf_integral_0. lra.
Qed.

Lemma sqrt_2PI : sqrt (2 * PI) = sqrt 2 * sqrt PI.
Proof. apply sqrt_mult; [lra | left; apply PI_RGT_0]. Qed.

Lemma norm_cdf_derivative (x : R) :
  derivable_pt_lim norm_cdf x (norm_pdf x).
Proof.
  assert (H2 : 0 < sqrt 2) by (apply sqrt_lt_R0; lra).
  assert (Hpi : 0 < sqrt PI) by (apply sqrt_lt_R0, PI_RGT_0).
  unfold norm_pdf. rewrite sqrt_2PI.
  apply (derivable_pt_lim_ext
           (fun y => / 2 + / sqrt PI * erf_integral (y * / sqrt 2))).
  { intros y. unfold norm_cdf, erf. fold (erf_integral (y / sqrt 2)).
    unfold Rdiv. field. lra. }
  replace (exp (- x ^ 2 / 2) / (sqrt 2 * sqrt PI))
    with (0 + / sqrt PI * (exp (- (x * / sqrt 2) ^ 2) * (1 * / sqrt 2))).
  - apply derivable_pt_lim_plus; [apply derivable_pt_lim_const | ].
    apply derivable_pt_lim_scal.
    apply (derivable_pt_lim_comp (fun y => y * / sqrt 2) erf_integral).
    + apply derivable_pt_lim_scal_right. apply derivable_pt_lim_id.
    + apply erf_integral_derivative.
  - assert (Hinv : / sqrt 2 * / sqrt 2 = / 2).
    { rewrite <- Rinv_mult, sqrt_sqrt by lra. reflexivity. }
    replace (- (x * / sqrt 2) ^ 2) with (- x ^ 2 * (/ sqrt 2 * / sqrt 2)) by ring.
    rewrite Hinv. fold (- x ^ 2 / 2). field. lra.
Qed.

(** ** Wallis integrals *)

Definition cos_pow (m : nat) (t : R) : R := cos t ^ m.

Lemma cos_pow_continuity (m : nat) : continuity (cos_pow m).
Proof. apply derivable_continuous. unfold cos_pow. reg. Qed.

(** The integral of [cos ^ m] from 0 to [theta]. *)
Definition cos_integral (m : nat) (theta : R) : R :=
  integral (cos_pow m) (cos_pow_continuity m) 0 theta.

Definition wallis (m : nat) : R := cos_integral m (PI / 2).

Lemma cos_integral_derivative (m : nat) (theta : R) :
  derivable_pt_lim (cos_integral m) theta (cos theta ^ m).
Proof. exact (integral_derivative (cos_pow m) (cos_pow_continuity m) theta). Qed.

Lemma cos_integral_0 (m : nat) : cos_integral m 0 = 0.
Proof. apply integral_same. Qed.

Lemma cos_pow_derivative (m : nat) (theta : R) :
  derivable_pt_lim (fun t => cos t ^ S m) theta
    (INR (S m) * cos theta ^ m * - sin theta).
Proof.
  apply (derivable_pt_lim_comp cos (fun y => y ^ S m)).
  - apply derivable_pt_lim_cos.
  - apply (derivable_pt_lim_pow (cos theta) (S m)).
Qed.

Lemma cos_integral_step (m : nat) (theta : R) :
  INR (m + 2) * cos_integral (m + 2) theta
  = INR (m + 1) * cos_integral m theta + cos theta ^ (m + 1) * sin theta.
Proof.
  set (g := fun t => INR (m + 2) * cos_integral (m + 2) t
                     - (INR (m + 1) * cos_integral m t + cos t ^ S m * sin t)).
  assert (Hd : forall c, derivable_pt_lim g c 0).
  { intros c. unfold g.
    replace 0 with
      (INR (m + 2) * cos c ^ (m + 2)
       - (INR (m + 1) * cos c ^ m
          + (INR (S m) * cos c ^ m * - sin c * sin c + cos c ^ S m * cos c))).
    - apply derivable_pt_lim_minus.
      + apply derivable_pt_lim_scal, cos_integral_derivative.
      + apply derivable_pt_lim_plus.
        * apply derivable_pt_lim_scal, cos_integral_derivative.
        * apply derivable_pt_lim_mult;
            [apply cos_pow_derivative | apply derivable_pt_lim_sin].
    - pose proof (sin2_cos2 c) as Hsc. unfold Rsqr in Hsc.
      replace (m + 2)%nat with (S (S m)) by lia.
      replace (m + 1)%nat with (S m) by lia.
      rewrite !S_INR. cbn [pow].
      transitivity ((INR m + 1) * cos c ^ m
                    * (sin c * sin c + cos c * cos c - 1)); [ring | ].
      rewrite Hsc. ring. }
  pose proof (constant_of_derivative g theta 0 Hd) as H. unfold g in H.
  rewrite !cos_integral_0, sin_0 in H.
  replace (S m) with (m + 1)%nat in H by lia. lra.
Qed.

Lemma wallis_step (m : nat) :
  INR (m + 2) * wallis (m + 2) = INR (m + 1) * wallis m.
Proof.
  unfold wallis. rewrite cos_integral_step, cos_PI2.
  replace (m + 1)%nat with (S m) by lia. cbn [pow]. ring.
Qed.

Lemma wallis_0 : wallis 0 = PI / 2.
Proof.
  assert (Hd : forall c, derivable_pt_lim (fun t => cos_integral 0 t - t) c 0).
  { intros c. replace 0 with (cos c ^ 0 - 1) by (cbn; ring).
    apply derivable_pt_lim_minus;
      [apply cos_integral_derivative | apply derivable_pt_lim_id]. }
  pose proof (constant_of_derivative _ (PI / 2) 0 Hd) as H. cbn beta in H.
  rewrite cos_integral_0 in H. unfold wallis. lra.
Qed.

Lemma wallis_1 : wallis 1 = 1.
Proof.
  assert (Hd : forall c, derivable_pt_lim (fun t => cos_integral 1 t - sin t) c 0).
  { intros c. replace 0 with (cos c ^ 1 - cos c) by (cbn; ring).
    apply derivable_pt_lim_minus;
      [apply cos_integral_derivative | apply derivable_pt_lim_sin]. }
  pose proof (constant_of_derivative _ (PI / 2) 0 Hd) as H. cbn beta in H.
  rewrite cos_integral_0, sin_0, sin_PI2 in H. unfold wallis. lra.
Qed.

Lemma cos_range (t : R) : 0 <= t <= PI / 2 -> 0 <= cos t <= 1.
Proof.
  intros Ht. split.
  - apply cos_ge_0; lra.
  - apply COS_bound.
Qed.

Lemma cos_integral_increasing (m : nat) (a b : R) :
  0 <= a -> a <= b -> b <= PI / 2 -> cos_integral m a <= cos_integral m b.
Proof.
  intros Ha Hab Hb.
  apply (increasing_of_derivative (cos_integral m) (fun t => cos t ^ m) a b Hab).
  - intros c _. apply cos_integral_derivative.
  - intros c Hc. apply pow_le. apply cos_range. lra.
Qed.

Lemma wallis_nonneg (m : nat) : 0 <= wallis m.
Proof.
  pose proof PI_RGT_0. unfold wallis. rewrite <- (cos_integral_0 m).
  apply cos_integral_increasing; lra.
Qed.

Lemma wallis_decreasing (m : nat) : wallis (S m) <= wallis m.
Proof.
  pose proof PI_RGT_0 as Hpi.
  pose proof (increasing_of_derivative
                (fun t => cos_integral m t - cos_integral (S m) t)
                (fun t => cos t ^ m - cos t ^ S m) 0 (PI / 2) ltac:(lra)) as H.
  cbn beta in H. rewrite !cos_integral_0 in H. unfold wallis.
  enough (0 - 0 <= cos_integral m (PI / 2) - cos_integral (S m) (PI / 2)) by lra.
  apply H.
  - intros c _. apply derivable_pt_lim_minus; apply cos_integral_derivative.
  - intros c Hc. pose proof (cos_range c Hc) as Hcos.
    pose proof (pow_le (cos c) m (proj1 Hcos)) as Hp.
    cbn [pow]. nra.
Qed.

Lemma wallis_product (m : nat) : INR (m + 1) * wallis m * wallis (m + 1) = PI / 2.
Proof.
  induction m as [ | m IH].
  - cbn [Nat.add]. rewrite wallis_0, wallis_1. cbn [INR]. ring.
  - replace (S m + 1)%nat with (m + 2)%nat by lia.
    replace (S m) with (m + 1)%nat by lia.
    transitivity (wallis (m + 1) * (INR (m + 2) * wallis (m + 2))); [ring | ].
    rewrite wallis_step, <- IH. ring.
Qed.

Lemma wallis_square (m : nat) : wallis (m + 1) ^ 2 <= PI / 2 / INR (m + 1).
Proof.
  assert (Hn : 0 < INR (m + 1)) by (apply lt_0_INR; lia).
  pose proof (wallis_product m) as Hp.
  pose proof (wallis_nonneg (m + 1)) as H0.
  pose proof (wallis_decreasing m) as Hd.
  replace (S m) with (m + 1)%nat in Hd by lia.
  apply (Rmult_le_reg_l (INR (m + 1))); [exact Hn | ].
  replace (INR (m + 1) * (PI / 2 / INR (m + 1))) with (PI / 2) by (field; lra).
  rewrite <- Hp. cbn [pow]. rewrite Rmult_1_r, Rmult_assoc.
  apply Rmult_le_compat_l; [lra | ].
  apply Rmult_le_compat_r; assumption.
Qed.

(** ** The Gaussian integral is at most [sqrt PI / 2] *)

Lemma pow_le_exp (n : nat) (v : R) : 0 <= v -> (1 + v) ^ n <= exp (INR n * v).
Proof.
  intros Hv. induction n as [ | n IH].
  - cbn [pow INR]. rewrite Rmult_0_l, exp_0. lra.
  - rewrite S_INR. replace ((INR n + 1) * v) with (v + INR n * v) by ring.
    rewrite exp_plus. cbn [pow].
    pose proof (exp_ineq1_le v). pose proof (pow_le (1 + v) n ltac:(lra)).
    apply Rmult_le_compat; lra.
Qed.

Lemma cos_atan_square (u : R) : cos (atan u) ^ 2 = / (1 + u ^ 2).
Proof.
  assert (Hp : 0 < 1 + u ^ 2) by (pose proof (pow2_ge_0 u); lra).
  rewrite cos_atan. unfold Rsqr. replace (u * u) with (u ^ 2) by ring.
  unfold Rdiv. rewrite Rmult_1_l, pow_inv. f_equal.
  replace (sqrt (1 + u ^ 2) ^ 2) with (sqrt (1 + u ^ 2) * sqrt (1 + u ^ 2)) by ring.
  apply sqrt_sqrt. lra.
Qed.

(** The comparison function: [sqrt n] times the integral of
    [cos ^ (2 k)] up to [atan (y / sqrt n)], for [n = k + 1]. *)
Definition wallis_majorant (k : nat) (y : R) : R :=
  sqrt (INR (S k)) * cos_integral (2 * k) (atan (y * / sqrt (INR (S k)))).

Lemma wallis_majorant_derivative (k : nat) (y : R) :
  derivable_pt_lim (wallis_majorant k) y
    ((/ (1 + y ^ 2 / INR (S k))) ^ S k).
Proof.
  assert (Hn : 0 < INR (S k)) by (apply lt_0_INR; lia).
  assert (Hs : 0 < sqrt (INR (S k))) by now apply sqrt_lt_R0.
  set (s := sqrt (INR (S k))) in *.
  set (u := y * / s).
  assert (Hu : u ^ 2 = y ^ 2 / INR (S k)).
  { unfold u. rewrite <- (sqrt_sqrt (INR (S k))) by lra. fold s. field. lra. }
  assert (Hp : 0 < 1 + u ^ 2) by (pose proof (pow2_ge_0 u); lra).
  rewrite <- Hu.
  replace ((/ (1 + u ^ 2)) ^ S k)
    with (s * (cos (atan u) ^ (2 * k) * (/ (1 + u ^ 2) * (1 * / s)))).
  - unfold wallis_majorant. fold s. apply derivable_pt_lim_scal.
    apply (derivable_pt_lim_comp (fun y => atan (y * / s)) (cos_integral (2 * k))).
    + apply (derivable_pt_lim_comp (fun y => y * / s) atan).
      * apply derivable_pt_lim_scal_right, derivable_pt_lim_id.
      * apply derivable_pt_lim_atan.
    + apply cos_integral_derivative.
  - rewrite pow_mult, cos_atan_square. cbn [pow].
    generalize dependent (/ (1 + u ^ 2)). intros w.
    field. lra.
Qed.

Lemma wallis_majorant_0 (k : nat) : wallis_majorant k 0 = 0.
Proof.
  unfold wallis_majorant. rewrite Rmult_0_l, atan_0, cos_integral_0. ring.
Qed.

Lemma erf_integrand_le_majorant (k : nat) (y : R) :
  exp (- y ^ 2) <= (/ (1 + y ^ 2 / INR (S k))) ^ S k.
Proof.
  assert (Hn : 0 < INR (S k)) by (apply lt_0_INR; lia).
  pose proof (pow2_ge_0 y) as Hy.
  assert (Hv : 0 <= y ^ 2 / INR (S k)).
  { apply Rmult_le_pos; [lra | left; now apply Rinv_0_lt_compat]. }
  rewrite pow_inv, exp_Ropp.
  apply Rinv_le_contravar.
  - apply pow_lt. lra.
  - replace (y ^ 2) with (INR (S k) * (y ^ 2 / INR (S k))) at 2 by (field; lra).
    now apply pow_le_exp.
Qed.

Lemma erf_integral_nonneg (y : R) : 0 <= y -> 0 <= erf_integral y.
Proof.
  intros Hy. rewrite <- erf_integral_0.
  apply (increasing_of_derivative erf_integral (fun t => exp (- t ^ 2)) 0 y Hy).
  - intros c _. apply erf_integral_derivative.
  - intros c _. left. apply exp_pos.
Qed.

Lemma erf_integral_le_majorant (k : nat) (y : R) :
  0 <= y -> erf_integral y <= wallis_majorant k y.
Proof.
  intros Hy.
  pose proof (increasing_of_derivative
                (fun t => wallis_majorant k t - erf_integral t)
                (fun t => (/ (1 + t ^ 2 / INR (S k))) ^ S k - exp (- t ^ 2))
                0 y Hy) as H.
  cbn beta in H. rewrite wallis_majorant_0, erf_integral_0 in H.
  enough (0 - 0 <= wallis_majorant k y - erf_integral y) by lra.
  apply H.
  - intros c _. apply derivable_pt_lim_minus;
      [apply wallis_majorant_derivative | apply erf_integral_derivative].
  - intros c _. pose proof (erf_integrand_le_majorant k c). lra.
Qed.

Lemma wallis_majorant_le (k : nat) (y : R) :
  0 <= y -> wallis_majorant k y <= sqrt (INR (S k)) * wallis (2 * k).
Proof.
  intros Hy. unfold wallis_majorant, wallis.
  assert (Hn : 0 < INR (S k)) by (apply lt_0_INR; lia).
  assert (Hs : 0 < sqrt (INR (S k))) by now apply sqrt_lt_R0.
  apply Rmult_le_compat_l; [lra | ].
  set (u := y * / sqrt (INR (S k))).
  assert (Hu : 0 <= u).
  { apply Rmult_le_pos; [exact Hy | left; now apply Rinv_0_lt_compat]. }
  pose proof (atan_bound u) as [_ Hub].
  assert (Hul : 0 <= atan u).
  { destruct Hu as [Hu | <-]; [ | rewrite atan_0; lra].
    rewrite <- atan_0. left. now apply atan_increasing. }
  apply cos_integral_increasing; lra.
Qed.

Lemma erf_integral_square_le (k : nat) (y : R) :
  0 <= y -> erf_integral y ^ 2 <= PI / 4 * (1 + / INR (S k)).
Proof.
  intros Hy.
  assert (Hn : 0 < INR (S k)) by (apply lt_0_INR; lia).
  assert (Hn1 : 0 < INR (S (S k))) by (apply lt_0_INR; lia).
  pose proof (erf_integral_nonneg y Hy) as H0.
  pose proof (erf_integral_le_majorant (S k) y Hy) as H1.
  pose proof (wallis_majorant_le (S k) y Hy) as H2.
  pose proof (wallis_square (2 * k + 1)) as H3.
  replace (2 * k + 1 + 1)%nat with (2 * S k)%nat in H3 by lia.
  pose proof (wallis_nonneg (2 * S k)) as H4.
  assert (Hs : 0 <= sqrt (INR (S (S k)))) by apply sqrt_pos.
  assert (Hle : erf_integral y <= sqrt (INR (S (S k))) * wallis (2 * S k)) by lra.
  assert (Hsq : erf_integral y ^ 2
                <= (sqrt (INR (S (S k))) * wallis (2 * S k)) ^ 2).
  { apply pow_incr. lra. }
  rewrite Rpow_mult_distr in Hsq.
  assert (Hss : sqrt (INR (S (S k))) ^ 2 = INR (S (S k))).
  { cbn [pow]. rewrite Rmult_1_r. apply sqrt_sqrt. lra. }
  rewrite Hss in Hsq.
  assert (Hb : INR (S (S k)) * wallis (2 * S k) ^ 2
               <= INR (S (S k)) * (PI / 2 / INR (2 * S k))).
  { apply Rmult_le_compat_l; lra. }
  replace (INR (S (S k)) * (PI / 2 / INR (2 * S k)))
    with (PI / 4 * (1 + / INR (S k))) in Hb.
  - lra.
  - rewrite mult_INR, (S_INR (S k)). replace (INR 2) with 2 by (cbn; lra).
    field. lra.
Qed.

Lemma erf_integral_square_bound (y : R) : 0 <= y -> erf_integral y ^ 2 <= PI / 4.
Proof.
  intros Hy. pose proof PI_RGT_0 as Hpi.
  destruct (Rle_dec (erf_integral y ^ 2) (PI / 4)) as [H | H]; [exact H | exfalso].
  apply Rnot_le_lt in H.
  set (eps := (erf_integral y ^ 2 - PI / 4) / (PI / 4)).
  assert (Heps : 0 < eps) by (apply Rdiv_lt_0_compat; lra).
  destruct (archimed_cor1 eps Heps) as (N & HN & HN0).
  destruct N as [ | k]; [lia | ].
  pose proof (erf_integral_square_le k y Hy) as Hk.
  assert (PI / 4 * / INR (S k) < PI / 4 * eps).
  { apply Rmult_lt_compat_l; lra. }
  unfold eps in *.
  replace (PI / 4 * ((erf_integral y ^ 2 - PI / 4) / (PI / 4)))
    with (erf_integral y ^ 2 - PI / 4) in * by (field; lra).
  lra.
Qed.

Lemma erf_integral_bound (y : R) : 0 <= y -> erf_integral y <= sqrt PI / 2.
Proof.
  intros Hy. pose proof PI_RGT_0 as Hpi.
  pose proof (erf_integral_square_bound y Hy) as Hsq.
  pose proof (erf_integral_nonneg y Hy) as H0.
  pose proof (sqrt_pos PI) as Hs.
  pose proof (sqrt_sqrt PI ltac:(lra)) as Hss.
  cbn [pow] in Hsq. nra.
Qed.

Lemma erf_range (z : R) : -1 <= erf z <= 1.
Proof.
  pose proof PI_RGT_0 as Hpi.
  assert (Hs : 0 < sqrt PI) by now apply sqrt_lt_R0.
  assert (Hpos : forall y, 0 <= y -> 0 <= erf y <= 1).
  { intros y Hy. unfold erf. fold (erf_integral y).
    pose proof (erf_integral_bound y Hy). pose proof (erf_integral_nonneg y Hy).
    split.
    - apply Rmult_le_pos; [ | assumption].
      apply Rmult_le_pos; [lra | left; now apply Rinv_0_lt_compat].
    - apply (Rmult_le_reg_l (sqrt PI / 2)); [lra | ].
      replace (sqrt PI / 2 * (2 / sqrt PI * erf_integral y))
        with (erf_integral y) by (field; lra).
      lra. }
  destruct (Rle_dec 0 z) as [Hz | Hz].
  - specialize (Hpos z Hz). lra.
  - specialize (Hpos (- z) ltac:(lra)). rewrite erf_odd in Hpos. lra.
Qed.

Lemma norm_cdf_range (x : R) : 0 <= norm_cdf x <= 1.
Proof.
  unfold norm_cdf. pose proof (erf_range (x / sqrt 2)). lra.
Qed.

(** ** Put-call parity *)

Lemma call_minus_put_value (S K T r sigma : R) :
  call_value S K T r sigma - put_value S K T r sigma = S - K * exp (- r * T).
Proof.
  unfold call_value, put_value. rewrite !norm_cdf_opp. ring.
Qed.

(** ** The call price as a function of the spot *)

Section Delta.

Variables K T r sigma : R.
Hypothesis K_pos : 0 < K.
Hypothesis T_pos : 0 < T.
Hypothesis sigma_pos : 0 < sigma.

Lemma d1_formula_derivative (S : R) :
  0 < S ->
  derivable_pt_lim (fun s => d1_formula s K T r sigma) S (/ (S * (sigma * sqrt T))).
Proof.
  intros HS. pose proof (sqrt_lt_R0 T T_pos) as Hq.
  unfold d1_formula.
  replace (/ (S * (sigma * sqrt T)))
    with ((/ (S / K) * (1 * / K) + 0) * / (sigma * sqrt T))
    by (field; repeat split; lra).
  apply derivable_pt_lim_scal_right.
  apply derivable_pt_lim_plus; [ | apply derivable_pt_lim_const].
  apply (derivable_pt_lim_comp (fun s => s * / K) ln).
  - apply derivable_pt_lim_scal_right, derivable_pt_lim_id.
  - apply derivable_pt_lim_ln. now apply ratio_pos.
Qed.

(** [S * pdf d1 = K * exp (- r T) * pdf d2]: the two density terms of
    the derivative cancel. *)
Lemma density_balance (S : R) :
  0 < S ->
  S * norm_pdf (d1_formula S K T r sigma)
  = K * exp (- r * T) * norm_pdf (d2_formula S K T r sigma).
Proof.
  intros HS. pose proof (denominator_pos T sigma T_pos sigma_pos) as Hden.
  pose proof PI_RGT_0 as Hpi.
  assert (Hq : 0 < sqrt (2 * PI)) by (apply sqrt_lt_R0; lra).
  set (a := sigma * sqrt T) in *.
  set (x := d1_formula S K T r sigma).
  assert (Hxa : x * a = ln (S / K) + (r + sigma ^ 2 / 2) * T).
  { unfold x, d1_formula. fold a. field. lra. }
  assert (Haa : a * a = sigma ^ 2 * T).
  { unfold a. replace (sigma * sqrt T * (sigma * sqrt T))
      with (sigma ^ 2 * (sqrt T * sqrt T)) by ring.
    rewrite sqrt_sqrt by lra. reflexivity. }
  unfold d2_formula. fold x a. unfold norm_pdf.
  replace (- (x - a) ^ 2 / 2) with (- x ^ 2 / 2 + (ln (S / K) + r * T)).
  - rewrite !exp_plus, exp_ln by now apply ratio_pos.
    replace (- r * T) with (- (r * T)) by ring. rewrite exp_Ropp.
    pose proof (exp_pos (r * T)). field. lra.
  - replace (- (x - a) ^ 2 / 2) with (- x ^ 2 / 2 + (x * a - a * a / 2)) by field.
    rewrite Hxa, Haa. field.
Qed.

(** The derivative of the call price in the spot is [Phi d1]. *)
Lemma call_value_derivative (S : R) :
  0 < S ->
  derivable_pt_lim (fun s => call_value s K T r sigma) S
    (norm_cdf (d1_formula S K T r sigma)).
Proof.
  intros HS. pose proof (denominator_pos T sigma T_pos sigma_pos) as Hden.
  set (a := sigma * sqrt T) in *.
  set (x := d1_formula S K T r sigma).
  pose proof (density_balance S HS) as Hbal. fold x in Hbal.
  unfold call_value, d2_formula. fold a.
  replace (norm_cdf x)
    with (1 * norm_cdf x + S * (norm_pdf x * / (S * a))
          - K * exp (- r * T) * (norm_pdf (d2_formula S K T r sigma) * (/ (S * a) - 0))).
  - apply derivable_pt_lim_minus.
    + apply (derivable_pt_lim_mult (fun s => s)
               (fun s => norm_cdf (d1_formula s K T r sigma)));
        [apply derivable_pt_lim_id | ].
      apply (derivable_pt_lim_comp (fun s => d1_formula s K T r sigma) norm_cdf).
      * now apply d1_formula_derivative.
      * apply norm_cdf_derivative.
    + apply (derivable_pt_lim_scal
               (fun s => norm_cdf (d1_formula s K T r sigma - a))).
      apply (derivable_pt_lim_comp (fun s => d1_formula s K T r sigma - a) norm_cdf).
      * apply derivable_pt_lim_minus;
          [now apply d1_formula_derivative | apply derivable_pt_lim_const].
      * apply norm_cdf_derivative.
  - rewrite Rminus_0_r.
    replace (K * exp (- r * T) * (norm_pdf (d2_formula S K T r sigma) * / (S * a)))
      with (K * exp (- r * T) * norm_pdf (d2_formula S K T r sigma) * / (S * a)) by ring.
    rewrite <- Hbal. field. lra.
Qed.

Lemma call_value_increment (S1 S2 : R) :
  0 < S1 -> S1 <= S2 ->
  0 <= call_value S2 K T r sigma - call_value S1 K T r sigma <= S2 - S1.
Proof.
  intros H1 [Hlt | <-]; [ | lra].
  destruct (MVT_cor2 (fun s => call_value s K T r sigma)
              (fun s => norm_cdf (d1_formula s K T r sigma)) S1 S2 Hlt)
    as (c & Heq & Hc).
  - intros c Hc. apply call_value_derivative. lra.
  - cbn beta in Heq. rewrite Heq.
    pose proof (norm_cdf_range (d1_formula c K T r sigma)) as [Hlo Hhi].
    split; [apply Rmult_le_pos; lra | ].
    rewrite <- (Rmult_1_l (S2 - S1)) at 2.
    apply Rmult_le_compat_r; lra.
Qed.

End Delta.

(** ** Numerical bounds *)

Lemma PI_bounds : 3.1415 <= PI <= 3.1421.
Proof.
  pose proof (PI_2_3_7_ineq 1) as [Hlo Hhi].
  unfold sum_f_R0, tg_alt, PI_2_3_7_tg, Ratan_seq in Hlo, Hhi.
  cbn [Nat.mul Nat.add pow INR] in Hlo, Hhi.
  split; lra.
Qed.

Lemma inv_sqrt_2PI_bounds : 0.3989 <= / sqrt (2 * PI) <= 0.39895.
Proof.
  pose proof PI_bounds as [Hlo Hhi].
  assert (Hq : 0 < sqrt (2 * PI)) by (apply sqrt_lt_R0; lra).
  pose proof (sqrt_sqrt (2 * PI) ltac:(lra)) as Hss.
  split.
  - apply (Rmult_le_reg_r (sqrt (2 * PI))); [exact Hq | ].
    rewrite Rinv_l by lra. nra.
  - apply (Rmult_le_reg_r (sqrt (2 * PI))); [exact Hq | ].
    rewrite Rinv_l by lra. nra.
Qed.

(** Taylor brackets of [exp (- u)] for [0 <= u]. *)
Lemma exp_neg_lower1 (u : R) : 1 - u <= exp (- u).
Proof. pose proof (exp_ineq1_le (- u)). lra. Qed.

Lemma exp_neg_derivative (c : R) : derivable_pt_lim (fun t => exp (- t)) c (- exp (- c)).
Proof.
  replace (- exp (- c)) with (exp (- c) * - 1) by ring.
  apply (derivable_pt_lim_comp Ropp exp).
  - apply derivable_pt_lim_opp, derivable_pt_lim_id.
  - apply derivable_pt_lim_exp.
Qed.

Lemma poly2_derivative (c : R) :
  derivable_pt_lim (fun t => 1 - t + t ^ 2 / 2) c (- 1 + c).
Proof.
  replace (- 1 + c) with (0 - 1 + (INR 2 * c ^ 1) * / 2) by (cbn; lra).
  apply derivable_pt_lim_plus.
  - apply derivable_pt_lim_minus;
      [apply derivable_pt_lim_const | apply derivable_pt_lim_id].
  - apply derivable_pt_lim_scal_right. apply (derivable_pt_lim_pow c 2).
Qed.

Lemma exp_neg_upper2 (u : R) : 0 <= u -> exp (- u) <= 1 - u + u ^ 2 / 2.
Proof.
  intros Hu.
  pose proof (increasing_of_derivative
                (fun t => 1 - t + t ^ 2 / 2 - exp (- t))
                (fun t => - 1 + t - - exp (- t)) 0 u Hu) as H.
  cbn beta in H. rewrite Ropp_0, exp_0 in H.
  enough (1 - 0 + 0 ^ 2 / 2 - 1 <= 1 - u + u ^ 2 / 2 - exp (- u)) by lra.
  apply H.
  - intros c _. apply derivable_pt_lim_minus;
      [apply poly2_derivative | apply exp_neg_derivative].
  - intros c _. pose proof (exp_neg_lower1 c). lra.
Qed.

Lemma exp_neg_lower3 (u : R) : 0 <= u -> 1 - u + u ^ 2 / 2 - u ^ 3 / 6 <= exp (- u).
Proof.
  intros Hu.
  pose proof (increasing_of_derivative
                (fun t => exp (- t) - (1 - t + t ^ 2 / 2 - t ^ 3 / 6))
                (fun t => - exp (- t) - (- 1 + t - (INR 3 * t ^ 2) * / 6)) 0 u Hu) as H.
  cbn beta in H. rewrite Ropp_0, exp_0 in H.
  enough (1 - (1 - 0 + 0 ^ 2 / 2 - 0 ^ 3 / 6)
          <= exp (- u) - (1 - u + u ^ 2 / 2 - u ^ 3 / 6)) by lra.
  apply H.
  - intros c _. apply derivable_pt_lim_minus; [apply exp_neg_derivative | ].
    apply derivable_pt_lim_minus; [apply poly2_derivative | ].
    apply derivable_pt_lim_scal_right. apply (derivable_pt_lim_pow c 3).
  - intros c Hc. pose proof (exp_neg_upper2 c ltac:(lra)).
    replace (INR 3) with 3 by (cbn; lra). lra.
Qed.

(** Brackets of [norm_cdf] on the non-negative reals, from the
    brackets of its derivative. *)
Definition cdf_lower (x : R) : R := x - x ^ 3 / 6 + x ^ 5 / 40 - x ^ 7 / 336.
Definition cdf_upper (x : R) : R := x - x ^ 3 / 6 + x ^ 5 / 40.

Lemma monomial_derivative (n : nat) (d c : R) :
  derivable_pt_lim (fun t => t ^ S n / d) c (INR (S n) * c ^ n / d).
Proof.
  apply derivable_pt_lim_scal_right. apply (derivable_pt_lim_pow c (S n)).
Qed.

Lemma cdf_upper_derivative (c : R) :
  derivable_pt_lim cdf_upper c (1 - c ^ 2 / 2 + (c ^ 2 / 2) ^ 2 / 2).
Proof.
  replace (1 - c ^ 2 / 2 + (c ^ 2 / 2) ^ 2 / 2)
    with (1 - INR 3 * c ^ 2 / 6 + INR 5 * c ^ 4 / 40) by (cbn; field).
  unfold cdf_upper.
  apply derivable_pt_lim_plus; [ | apply (monomial_derivative 4)].
  apply derivable_pt_lim_minus; [apply derivable_pt_lim_id | ].
  apply (monomial_derivative 2).
Qed.

Lemma cdf_lower_derivative (c : R) :
  derivable_pt_lim cdf_lower c
    (1 - c ^ 2 / 2 + (c ^ 2 / 2) ^ 2 / 2 - (c ^ 2 / 2) ^ 3 / 6).
Proof.
  replace (1 - c ^ 2 / 2 + (c ^ 2 / 2) ^ 2 / 2 - (c ^ 2 / 2) ^ 3 / 6)
    with (1 - INR 3 * c ^ 2 / 6 + INR 5 * c ^ 4 / 40 - INR 7 * c ^ 6 / 336)
    by (cbn; field).
  unfold cdf_lower.
  apply derivable_pt_lim_minus; [ | apply (monomial_derivative 6)].
  apply derivable_pt_lim_plus; [ | apply (monomial_derivative 4)].
  apply derivable_pt_lim_minus; [apply derivable_pt_lim_id | ].
  apply (monomial_derivative 2).
Qed.

Lemma norm_cdf_bracket (x : R) :
  0 <= x ->
  / 2 + / sqrt (2 * PI) * cdf_lower x <= norm_cdf x
  <= / 2 + / sqrt (2 * PI) * cdf_upper x.
Proof.
  intros Hx. pose proof PI_RGT_0 as Hpi.
  assert (Hq : 0 < / sqrt (2 * PI)).
  { apply Rinv_0_lt_compat, sqrt_lt_R0. lra. }
  set (k := / sqrt (2 * PI)) in *.
  assert (Hpdf : forall c, norm_pdf c = k * exp (- (c ^ 2 / 2))).
  { intros c. unfold norm_pdf, k, Rdiv. rewrite Ropp_mult_distr_l. ring. }
  assert (Hu : forall c, 0 <= c ^ 2 / 2) by (intros c; pose proof (pow2_ge_0 c); lra).
  split.
  - pose proof (increasing_of_derivative
                  (fun t => norm_cdf t - k * cdf_lower t)
                  (fun t => norm_pdf t
                            - k * (1 - t ^ 2 / 2 + (t ^ 2 / 2) ^ 2 / 2
                                   - (t ^ 2 / 2) ^ 3 / 6)) 0 x Hx) as H.
    cbn beta in H. rewrite norm_cdf_0 in H. unfold cdf_lower at 1 in H.
    enough (1 / 2 - k * (0 - 0 ^ 3 / 6 + 0 ^ 5 / 40 - 0 ^ 7 / 336)
            <= norm_cdf x - k * cdf_lower x) by lra.
    apply H.
    + intros c _. apply derivable_pt_lim_minus; [apply norm_cdf_derivative | ].
      apply derivable_pt_lim_scal, cdf_lower_derivative.
    + intros c _. rewrite Hpdf.
      pose proof (exp_neg_lower3 (c ^ 2 / 2) (Hu c)). nra.
  - pose proof (increasing_of_derivative
                  (fun t => k * cdf_upper t - norm_cdf t)
                  (fun t => k * (1 - t ^ 2 / 2 + (t ^ 2 / 2) ^ 2 / 2)
                            - norm_pdf t) 0 x Hx) as H.
    cbn beta in H. rewrite norm_cdf_0 in H. unfold cdf_upper at 1 in H.
    enough (k * (0 - 0 ^ 3 / 6 + 0 ^ 5 / 40) - 1 / 2
            <= k * cdf_upper x - norm_cdf x) by lra.
    apply H.
    + intros c _. apply derivable_pt_lim_minus; [ | apply norm_cdf_derivative].
      apply derivable_pt_lim_scal, cdf_upper_derivative.
    + intros c _. rewrite Hpdf.
      pose proof (exp_neg_upper2 (c ^ 2 / 2) (Hu c)). nra.
Qed.

(** ** The reference scenario *)

Lemma d1_formula_reference : d1_formula 100 100 1 0.05 0.2 = 0.35.
Proof.
  unfold d1_formula. replace (100 / 100) with 1 by lra.
  rewrite ln_1, sqrt_1. lra.
Qed.

Lemma d2_formula_reference : d2_formula 100 100 1 0.05 0.2 = 0.15.
Proof.
  unfold d2_formula. rewrite d1_formula_reference, sqrt_1. lra.
Qed.

Lemma norm_cdf_035 : 0.63681 <= norm_cdf 0.35 <= 0.63684.
Proof.
  pose proof (norm_cdf_bracket 0.35 ltac:(lra)) as [Hlo Hhi].
  pose proof inv_sqrt_2PI_bounds as [Hk1 Hk2].
  unfold cdf_lower, cdf_upper in *. split; lra.
Qed.

Lemma norm_cdf_015 : 0.55961 <= norm_cdf 0.15 <= 0.55962.
Proof.
  pose proof (norm_cdf_bracket 0.15 ltac:(lra)) as [Hlo Hhi].
  pose proof inv_sqrt_2PI_bounds as [Hk1 Hk2].
  unfold cdf_lower, cdf_upper in *. split; lra.
Qed.

Lemma discount_reference : 0.95122 <= exp (- (0.05) * 1) <= 0.95125.
Proof.
  replace (- (0.05) * 1) with (- (0.05)) by lra.
  pose proof (exp_neg_lower3 0.05 ltac:(lra)).
  pose proof (exp_neg_upper2 0.05 ltac:(lra)).
  split; lra.
Qed.

Lemma discounted_cdf_reference :
  0.53231 <= exp (- (0.05) * 1) * norm_cdf 0.15 <= 0.53234.
Proof.
  pose proof norm_cdf_015 as [Hp1 Hp2]. pose proof discount_reference as [He1 He2].
  split.
  - apply Rle_trans with (0.95122 * 0.55961); [lra | ].
    apply Rmult_le_compat; lra.
  - apply Rle_trans with (0.95125 * 0.55962); [ | lra].
    apply Rmult_le_compat; lra.
Qed.

Lemma call_value_reference : 10.44 <= call_value 100 100 1 0.05 0.2 <= 10.46.
Proof.
  unfold call_value. rewrite d1_formula_reference, d2_formula_reference.
  pose proof norm_cdf_035. pose proof discounted_cdf_reference.
  split; lra.
Qed.

Lemma put_value_reference : 5.56 <= put_value 100 100 1 0.05 0.2 <= 5.58.
Proof.
  unfold put_value. rewrite d1_formula_reference, d2_formula_reference.
  rewrite !norm_cdf_opp.
  pose proof norm_cdf_035. pose proof discounted_cdf_reference.
  pose proof discount_reference.
  split; lra.
Qed.

(** ** The relations between the two prices *)

(** C2.  Put-call parity: on valid inputs both calls return a real
    price and the call price minus the put price is
    [S - K * exp (- r T)]. *)
Theorem put_call_parity (S K T r sigma : R) :
  0 < S -> 0 < K -> 0 < T -> 0 < sigma ->
  exists c p,
    black_scholes S K T r sigma "call" = Returns (Some c)
    /\ black_scholes S K T r sigma "put" = Returns (Some p)
    /\ c - p = S - K * exp (- r * T).
Proof.
  intros HS HK HT Hs.
  exists (call_value S K T r sigma), (put_value S K T r sigma). split_conj.
  - now apply black_scholes_call_valid.
  - now apply black_scholes_put_valid.
  - apply call_minus_put_value.
Qed.

Lemma put_call_parity_witness :
  exists c p,
    black_scholes 100 100 1 0.05 0.2 "call" = Returns (Some c)
    /\ black_scholes 100 100 1 0.05 0.2 "put" = Returns (Some p)
    /\ c - p = 100 - 100 * exp (- (0.05) * 1).
Proof.
  apply (put_call_parity 100 100 1 0.05 0.2); lra.
Defined.

(** C6.  Monotonicity in the spot: with [K], [T], [sigma] positive and
    [0 < S1 <= S2], the four calls return real prices, the call price at
    [S1] is at most the call price at [S2], and the put price at [S1] is
    at least the put price at [S2]. *)
Theorem monotone_in_spot (K T r sigma S1 S2 : R) :
  0 < K -> 0 < T -> 0 < sigma -> 0 < S1 -> S1 <= S2 ->
  exists c1 c2 p1 p2,
    black_scholes S1 K T r sigma "call" = Returns (Some c1)
    /\ black_scholes S2 K T r sigma "call" = Returns (Some c2)
    /\ black_scholes S1 K T r sigma "put" = Returns (Some p1)
    /\ black_scholes S2 K T r sigma "put" = Returns (Some p2)
    /\ c1 <= c2 /\ p2 <= p1.
Proof.
  intros HK HT Hs H1 H12.
  exists (call_value S1 K T r sigma), (call_value S2 K T r sigma),
         (put_value S1 K T r sigma), (put_value S2 K T r sigma).
  pose proof (call_value_increment K T r sigma HK HT Hs S1 S2 H1 H12) as [Hlo Hhi].
  pose proof (call_minus_put_value S1 K T r sigma) as Hp1.
  pose proof (call_minus_put_value S2 K T r sigma) as Hp2.
  split_conj.
  - apply black_scholes_call_valid; lra.
  - apply black_scholes_call_valid; lra.
  - apply black_scholes_put_valid; lra.
  - apply black_scholes_put_valid; lra.
  - lra.
  - lra.
Qed.

Lemma monotone_in_spot_witness :
  exists c1 c2 p1 p2,
    black_scholes 90 100 1 0.05 0.2 "call" = Returns (Some c1)
    /\ black_scholes 110 100 1 0.05 0.2 "call" = Returns (Some c2)
    /\ black_scholes 90 100 1 0.05 0.2 "put" = Returns (Some p1)
    /\ black_scholes 110 100 1 0.05 0.2 "put" = Returns (Some p2)
    /\ c1 <= c2 /\ p2 <= p1.
Proof.
  apply (monotone_in_spot 100 1 0.05 0.2 90 110); lra.
Defined.

(** C9.  On the reference inputs [S = 100], [K = 100], [T = 1],
    [r = 0.05], [sigma = 0.2] the call price is within 0.01 of 10.45 and
    the put price within 0.01 of 5.57. *)
Theorem reference_prices :
  exists c p,
    black_scholes 100 100 1 0.05 0.2 "call" = Returns (Some c)
    /\ black_scholes 100 100 1 0.05 0.2 "put" = Returns (Some p)
    /\ Rabs (c - 10.45) <= 0.01
    /\ Rabs (p - 5.57) <= 0.01.
Proof.
  exists (call_value 100 100 1 0.05 0.2), (put_value 100 100 1 0.05 0.2).
  pose proof call_value_reference as [Hc1 Hc2].
  pose proof put_value_reference as [Hp1 Hp2].
  split_conj.
  - apply black_scholes_call_valid; lra.
  - apply black_scholes_put_valid; lra.
  - apply Rabs_le. lra.
  - apply Rabs_le. lra.
Qed.

(** * Further properties *)

(** ** The Gaussian integral reaches [sqrt PI / 2] *)

Lemma pow_le_exp_neg (n : nat) (v : R) :
  0 <= v <= 1 -> (1 - v) ^ n <= exp (- (INR n * v)).
Proof.
  intros Hv. induction n as [ | n IH].
  - cbn [pow INR]. rewrite Rmult_0_l, Ropp_0, exp_0. lra.
  - rewrite S_INR.
    replace (- ((INR n + 1) * v)) with (- v + - (INR n * v)) by ring.
    rewrite exp_plus. cbn [pow].
    pose proof (exp_neg_lower1 v). pose proof (pow_le (1 - v) n ltac:(lra)).
    apply Rmult_le_compat; lra.
Qed.

(** [sqrt n * W (2 n + 1) <= integral of exp (- t^2) from 0 to sqrt n],
    by comparing the derivatives in [theta] of the integral up to
    [sqrt n * sin theta] and of the integral of [cos ^ (2 n + 1)]. *)
Lemma erf_integral_minorant (n : nat) :
  sqrt (INR n) * wallis (2 * n + 1) <= erf_integral (sqrt (INR n)).
Proof.
  pose proof PI_RGT_0 as Hpi.
  pose proof (pos_INR n) as Hn.
  pose proof (sqrt_pos (INR n)) as Hs.
  pose proof (sqrt_sqrt (INR n) Hn) as Hss.
  set (s := sqrt (INR n)) in *.
  pose proof (increasing_of_derivative
                (fun t => erf_integral (s * sin t) - s * cos_integral (2 * n + 1) t)
                (fun t => exp (- (s * sin t) ^ 2) * (s * cos t)
                          - s * cos t ^ (2 * n + 1))
                0 (PI / 2) ltac:(lra)) as H.
  cbn beta in H.
  rewrite sin_0, sin_PI2, Rmult_0_r, Rmult_1_r, erf_integral_0, cos_integral_0 in H.
  unfold wallis.
  enough (0 - s * 0 <= erf_integral s - s * cos_integral (2 * n + 1) (PI / 2)) by lra.
  apply H.
  - intros c _. apply derivable_pt_lim_minus.
    + apply (derivable_pt_lim_comp (fun t => s * sin t) erf_integral).
      * apply derivable_pt_lim_scal, derivable_pt_lim_sin.
      * apply erf_integral_derivative.
    + apply derivable_pt_lim_scal, cos_integral_derivative.
  - intros c Hc. pose proof (cos_range c Hc) as [Hc0 Hc1].
    pose proof (sin2_cos2 c) as Hsc. unfold Rsqr in Hsc.
    assert (Hv : 0 <= sin c * sin c <= 1) by nra.
    pose proof (pow_le_exp_neg n (sin c * sin c) Hv) as Hexp.
    replace (1 - sin c * sin c) with (cos c ^ 2) in Hexp by (cbn [pow]; lra).
    rewrite <- pow_mult in Hexp.
    replace (- (s * sin c) ^ 2) with (- (INR n * (sin c * sin c)))
      by (rewrite <- Hss; ring).
    replace (2 * n + 1)%nat with (S (2 * n)) by lia. cbn [pow].
    assert (0 <= s * cos c) by (apply Rmult_le_pos; lra).
    nra.
Qed.

Lemma wallis_square_lower (m : nat) : PI / 2 / INR (m + 1) <= wallis m ^ 2.
Proof.
  assert (Hn : 0 < INR (m + 1)) by (apply lt_0_INR; lia).
  pose proof (wallis_product m) as Hp.
  pose proof (wallis_nonneg m) as H0.
  pose proof (wallis_decreasing m) as Hd.
  replace (S m) with (m + 1)%nat in Hd by lia.
  apply (Rmult_le_reg_l (INR (m + 1))); [exact Hn | ].
  replace (INR (m + 1) * (PI / 2 / INR (m + 1))) with (PI / 2) by (field; lra).
  rewrite <- Hp. cbn [pow]. rewrite Rmult_1_r, Rmult_assoc.
  apply Rmult_le_compat_l; [lra | ].
  apply Rmult_le_compat_l; assumption.
Qed.

Lemma erf_integral_square_lower (n : nat) :
  PI / 4 * (INR n / INR (n + 1)) <= erf_integral (sqrt (INR n)) ^ 2.
Proof.
  pose proof PI_RGT_0 as Hpi.
  pose proof (pos_INR n) as Hn.
  assert (Hn1 : 0 < INR (n + 1)) by (apply lt_0_INR; lia).
  pose proof (sqrt_pos (INR n)) as Hs.
  pose proof (erf_integral_minorant n) as Hm.
  pose proof (wallis_square_lower (2 * n + 1)) as Hw.
  pose proof (wallis_nonneg (2 * n + 1)) as Hw0.
  assert (Hsq : (sqrt (INR n) * wallis (2 * n + 1)) ^ 2
                <= erf_integral (sqrt (INR n)) ^ 2).
  { apply pow_incr. split; [apply Rmult_le_pos; assumption | exact Hm]. }
  rewrite Rpow_mult_distr in Hsq.
  assert (Hss : sqrt (INR n) ^ 2 = INR n).
  { cbn [pow]. rewrite Rmult_1_r. now apply sqrt_sqrt. }
  rewrite Hss in Hsq.
  apply Rle_trans with (INR n * (PI / 2 / INR (2 * n + 1 + 1))).
  - replace (2 * n + 1 + 1)%nat with (2 * (n + 1))%nat by lia.
    rewrite mult_INR. replace (INR 2) with 2 by (cbn; lra).
    right. field. lra.
  - apply Rle_trans with (INR n * wallis (2 * n + 1) ^ 2); [ | exact Hsq].
    apply Rmult_le_compat_l; assumption.
Qed.

Lemma erf_tail (n : nat) : 1 - / INR (n + 1) <= erf (sqrt (INR n)).
Proof.
  pose proof PI_RGT_0 as Hpi.
  assert (Hn1 : 0 < INR (n + 1)) by (apply lt_0_INR; lia).
  assert (Hq : 0 < sqrt PI) by now apply sqrt_lt_R0.
  pose proof (sqrt_sqrt PI ltac:(lra)) as Hqq.
  pose proof (erf_integral_square_lower n) as Hlow.
  pose proof (erf_range (sqrt (INR n))) as [_ Hhi].
  pose proof (erf_integral_nonneg (sqrt (INR n)) (sqrt_pos _)) as H0.
  assert (He : erf (sqrt (INR n)) = 2 / sqrt PI * erf_integral (sqrt (INR n)))
    by reflexivity.
  set (e := erf (sqrt (INR n))) in *. set (E := erf_integral (sqrt (INR n))) in *.
  assert (He0 : 0 <= e).
  { rewrite He. apply Rmult_le_pos; [ | exact H0].
    apply Rmult_le_pos; [lra | left; now apply Rinv_0_lt_compat]. }
  assert (Hee : e ^ 2 = 4 / PI * E ^ 2).
  { rewrite He. replace (4 / PI) with (4 / (sqrt PI * sqrt PI))
      by (rewrite Hqq; reflexivity).
    field. lra. }
  assert (Hfrac : INR n / INR (n + 1) = 1 - / INR (n + 1)).
  { rewrite plus_INR. cbn [INR]. rewrite plus_INR in Hn1. cbn [INR] in Hn1.
    field. lra. }
  assert (Hsq : 1 - / INR (n + 1) <= e ^ 2).
  { rewrite Hee, <- Hfrac.
    apply (Rmult_le_reg_l (PI / 4)); [lra | ].
    replace (PI / 4 * (4 / PI * E ^ 2)) with (E ^ 2) by (field; lra).
    exact Hlow. }
  cbn [pow] in Hsq. nra.
Qed.

Lemma norm_cdf_increasing (x y : R) : x <= y -> norm_cdf x <= norm_cdf y.
Proof.
  intros Hxy.
  apply (increasing_of_derivative norm_cdf norm_pdf x y Hxy).
  - intros c _. apply norm_cdf_derivative.
  - intros c _. unfold norm_pdf. pose proof PI_RGT_0.
    apply Rmult_le_pos; [left; apply exp_pos | ].
    left. apply Rinv_0_lt_compat, sqrt_lt_R0. lra.
Qed.

(** [norm_cdf] gets as small as one likes on the left. *)
Lemma norm_cdf_vanishes (eps : R) :
  0 < eps -> exists x0, forall x, x <= x0 -> norm_cdf x < eps.
Proof.
  intros Heps.
  destruct (archimed_cor1 eps Heps) as (N & HN & HN0).
  assert (H2 : 0 < sqrt 2) by (apply sqrt_lt_R0; lra).
  exists (- (sqrt 2 * sqrt (INR N))). intros x Hx.
  apply Rle_lt_trans with (norm_cdf (- (sqrt 2 * sqrt (INR N))));
    [now apply norm_cdf_increasing | ].
  unfold norm_cdf.
  replace (- (sqrt 2 * sqrt (INR N)) / sqrt 2) with (- sqrt (INR N))
    by (field; lra).
  rewrite erf_odd. pose proof (erf_tail N) as Ht.
  assert (HN1 : / INR (N + 1) <= / INR N).
  { apply Rinv_le_contravar; [apply lt_0_INR; lia | apply le_INR; lia]. }
  lra.
Qed.

(** ** The prices are not negative *)

Lemma norm_pdf_pos (x : R) : 0 < norm_pdf x.
Proof.
  unfold norm_pdf. pose proof PI_RGT_0.
  apply Rmult_lt_0_compat; [apply exp_pos | ].
  apply Rinv_0_lt_compat, sqrt_lt_R0. lra.
Qed.

Lemma norm_pdf_shift (a y : R) :
  norm_pdf (y - a) = norm_pdf y * exp (a * y - a ^ 2 / 2).
Proof.
  unfold norm_pdf.
  replace (- (y - a) ^ 2 / 2) with (- y ^ 2 / 2 + (a * y - a ^ 2 / 2)) by field.
  rewrite exp_plus. unfold Rdiv. ring.
Qed.

(** The call price in units of the discounted strike, as a function of
    [d1]: [exp (a y - a^2 / 2) * Phi y - Phi (y - a)] with [a = sigma sqrt T]. *)
Definition premium (a y : R) : R :=
  exp (a * y - a ^ 2 / 2) * norm_cdf y - norm_cdf (y - a).

Lemma premium_derivative (a y : R) :
  derivable_pt_lim (premium a) y (a * exp (a * y - a ^ 2 / 2) * norm_cdf y).
Proof.
  unfold premium.
  replace (a * exp (a * y - a ^ 2 / 2) * norm_cdf y)
    with ((exp (a * y - a ^ 2 / 2) * (a * 1 - 0)) * norm_cdf y
          + exp (a * y - a ^ 2 / 2) * norm_pdf y
          - norm_pdf (y - a) * (1 - 0))
    by (rewrite norm_pdf_shift; ring).
  apply derivable_pt_lim_minus.
  - apply (derivable_pt_lim_mult (fun t => exp (a * t - a ^ 2 / 2)) norm_cdf).
    + apply (derivable_pt_lim_comp (fun t => a * t - a ^ 2 / 2) exp).
      * apply derivable_pt_lim_minus; [ | apply derivable_pt_lim_const].
        apply derivable_pt_lim_scal, derivable_pt_lim_id.
      * apply derivable_pt_lim_exp.
    + apply norm_cdf_derivative.
  - apply (derivable_pt_lim_comp (fun t => t - a) norm_cdf).
    + apply derivable_pt_lim_minus;
        [apply derivable_pt_lim_id | apply derivable_pt_lim_const].
    + apply norm_cdf_derivative.
Qed.

Lemma premium_increasing (a y z : R) :
  0 <= a -> z <= y -> premium a z <= premium a y.
Proof.
  intros Ha Hzy.
  apply (increasing_of_derivative (premium a)
           (fun t => a * exp (a * t - a ^ 2 / 2) * norm_cdf t) z y Hzy).
  - intros c _. apply premium_derivative.
  - intros c _. pose proof (norm_cdf_range c) as [H0 _].
    pose proof (exp_pos (a * c - a ^ 2 / 2)).
    apply Rmult_le_pos; [apply Rmult_le_pos; lra | exact H0].
Qed.

Lemma premium_nonneg (a y : R) : 0 <= a -> 0 <= premium a y.
Proof.
  intros Ha.
  destruct (Rle_dec 0 (premium a y)) as [H | H]; [exact H | exfalso].
  apply Rnot_le_lt in H.
  destruct (norm_cdf_vanishes (- premium a y) ltac:(lra)) as (x0 & Hx0).
  set (z := Rmin y x0).
  pose proof (Rmin_l y x0) as Hzy. pose proof (Rmin_r y x0) as Hzx. fold z in Hzy, Hzx.
  pose proof (premium_increasing a y z Ha Hzy) as Hinc.
  pose proof (Hx0 z Hzx) as Hsmall.
  pose proof (norm_cdf_increasing (z - a) z ltac:(lra)) as Hmon.
  pose proof (norm_cdf_range z) as [Hz0 _].
  pose proof (exp_pos (a * z - a ^ 2 / 2)) as He.
  assert (0 <= exp (a * z - a ^ 2 / 2) * norm_cdf z) by (apply Rmult_le_pos; lra).
  unfold premium in Hinc at 1. lra.
Qed.

Section Premium.

Variables S K T r sigma : R.
Hypothesis S_pos : 0 < S.
Hypothesis K_pos : 0 < K.
Hypothesis T_pos : 0 < T.
Hypothesis sigma_pos : 0 < sigma.

Lemma moneyness :
  let a := sigma * sqrt T in
  S = K * exp (- r * T) * exp (a * d1_formula S K T r sigma - a ^ 2 / 2).
Proof.
  intros a. pose proof (denominator_pos T sigma T_pos sigma_pos) as Hden.
  fold a in Hden.
  assert (Hxa : a * d1_formula S K T r sigma = ln (S / K) + (r + sigma ^ 2 / 2) * T).
  { unfold d1_formula. fold a. field. lra. }
  assert (Haa : a ^ 2 = sigma ^ 2 * T).
  { unfold a. rewrite Rpow_mult_distr. f_equal.
    cbn [pow]. rewrite Rmult_1_r. apply sqrt_sqrt. lra. }
  rewrite Hxa, Haa.
  replace (ln (S / K) + (r + sigma ^ 2 / 2) * T - sigma ^ 2 * T / 2)
    with (ln (S / K) + r * T) by field.
  rewrite exp_plus, exp_ln by now apply ratio_pos.
  replace (- r * T) with (- (r * T)) by ring. rewrite exp_Ropp.
  pose proof (exp_pos (r * T)). field. lra.
Qed.

Lemma call_value_premium :
  call_value S K T r sigma
  = K * exp (- r * T) * premium (sigma * sqrt T) (d1_formula S K T r sigma).
Proof.
  unfold call_value, premium, d2_formula.
  rewrite moneyness at 1. cbv zeta. ring.
Qed.

Lemma put_value_premium :
  let a := sigma * sqrt T in
  let z := - d2_formula S K T r sigma in
  put_value S K T r sigma
  = K * exp (- r * T) * exp (- (a * z - a ^ 2 / 2)) * premium a z.
Proof.
  intros a z.
  assert (Hz : - d1_formula S K T r sigma = z - a).
  { unfold z, a, d2_formula. ring. }
  assert (HS : S = K * exp (- r * T) * exp (- (a * z - a ^ 2 / 2))).
  { rewrite moneyness at 1. cbv zeta. do 2 f_equal.
    unfold z, a, d2_formula. field. }
  assert (Hg : exp (- (a * z - a ^ 2 / 2)) * exp (a * z - a ^ 2 / 2) = 1).
  { rewrite <- exp_plus, Rplus_opp_l. apply exp_0. }
  unfold put_value. fold z. rewrite Hz.
  transitivity (K * exp (- r * T) * norm_cdf z
                - K * exp (- r * T) * exp (- (a * z - a ^ 2 / 2)) * norm_cdf (z - a)).
  { f_equal. f_equal. exact HS. }
  unfold premium.
  transitivity (K * exp (- r * T)
                * (exp (- (a * z - a ^ 2 / 2)) * exp (a * z - a ^ 2 / 2)) * norm_cdf z
                - K * exp (- r * T) * exp (- (a * z - a ^ 2 / 2)) * norm_cdf (z - a));
    [rewrite Hg | ]; ring.
Qed.

Lemma call_value_nonneg : 0 <= call_value S K T r sigma.
Proof.
  rewrite call_value_premium.
  pose proof (denominator_pos T sigma T_pos sigma_pos) as Hden.
  pose proof (exp_pos (- r * T)).
  apply Rmult_le_pos; [apply Rmult_le_pos; lra | ].
  apply premium_nonneg. lra.
Qed.

Lemma put_value_nonneg : 0 <= put_value S K T r sigma.
Proof.
  rewrite put_value_premium.
  pose proof (denominator_pos T sigma T_pos sigma_pos) as Hden.
  pose proof (exp_pos (- r * T)).
  apply Rmult_le_pos; [ | apply premium_nonneg; lra].
  apply Rmult_le_pos; [apply Rmult_le_pos; lra | left; apply exp_pos].
Qed.

Lemma call_value_le_spot : call_value S K T r sigma <= S.
Proof.
  pose proof put_value_nonneg. pose proof (exp_pos (- r * T)).
  pose proof (norm_cdf_range (d1_formula S K T r sigma)) as [_ H1].
  pose proof (norm_cdf_range (d2_formula S K T r sigma)) as [H2 _].
  unfold call_value.
  assert (0 <= K * exp (- r * T) * norm_cdf (d2_formula S K T r sigma)).
  { apply Rmult_le_pos; [apply Rmult_le_pos; lra | exact H2]. }
  assert (S * norm_cdf (d1_formula S K T r sigma) <= S * 1).
  { apply Rmult_le_compat_l; lra. }
  lra.
Qed.

End Premium.

(** ** How the call price moves with each input *)

(** The derivative of [s * Phi x - D * Phi (x - a)] along any parameter,
    when the density terms balance: the derivative of [x] drops out. *)
Lemma price_derivative (s x a D : R -> R) (s' x' a' D' p : R) :
  derivable_pt_lim s p s' -> derivable_pt_lim x p x' ->
  derivable_pt_lim a p a' -> derivable_pt_lim D p D' ->
  s p * norm_pdf (x p) = D p * norm_pdf (x p - a p) ->
  derivable_pt_lim (fun q => s q * norm_cdf (x q) - D q * norm_cdf (x q - a q)) p
    (s' * norm_cdf (x p) - D' * norm_cdf (x p - a p) + s p * norm_pdf (x p) * a').
Proof.
  intros Hs Hx Ha HD Hbal.
  replace (s' * norm_cdf (x p) - D' * norm_cdf (x p - a p)
           + s p * norm_pdf (x p) * a')
    with (s' * norm_cdf (x p) + s p * (norm_pdf (x p) * x')
          - (D' * norm_cdf (x p - a p)
             + D p * (norm_pdf (x p - a p) * (x' - a'))))
    by (transitivity (s' * norm_cdf (x p) - D' * norm_cdf (x p - a p)
                      + x' * (s p * norm_pdf (x p) - D p * norm_pdf (x p - a p))
                      + D p * norm_pdf (x p - a p) * a');
        [ring | rewrite Hbal; ring]).
  apply derivable_pt_lim_minus.
  - apply (derivable_pt_lim_mult s (fun q => norm_cdf (x q))); [exact Hs | ].
    apply (derivable_pt_lim_comp x norm_cdf); [exact Hx | apply norm_cdf_derivative].
  - apply (derivable_pt_lim_mult D (fun q => norm_cdf (x q - a q))); [exact HD | ].
    apply (derivable_pt_lim_comp (fun q => x q - a q) norm_cdf).
    + now apply derivable_pt_lim_minus.
    + apply norm_cdf_derivative.
Qed.

Section Sensitivities.

Variables S K T r sigma : R.
Hypothesis S_pos : 0 < S.
Hypothesis K_pos : 0 < K.
Hypothesis T_pos : 0 < T.
Hypothesis sigma_pos : 0 < sigma.

Lemma density_terms_balance :
  S * norm_pdf (d1_formula S K T r sigma)
  = K * exp (- r * T) * norm_pdf (d1_formula S K T r sigma - sigma * sqrt T).
Proof. exact (density_balance K T r sigma K_pos T_pos sigma_pos S S_pos). Qed.

Lemma discount_derivative_rate :
  derivable_pt_lim (fun q => K * exp (- q * T)) r (- (K * T * exp (- r * T))).
Proof.
  replace (- (K * T * exp (- r * T))) with (K * (exp (- r * T) * (- 1 * T))) by ring.
  apply derivable_pt_lim_scal.
  apply (derivable_pt_lim_comp (fun q => - q * T) exp).
  - apply derivable_pt_lim_scal_right.
    apply derivable_pt_lim_opp, derivable_pt_lim_id.
  - apply derivable_pt_lim_exp.
Qed.

Lemma discount_derivative_maturity :
  derivable_pt_lim (fun t => K * exp (- r * t)) T (- (K * r * exp (- r * T))).
Proof.
  replace (- (K * r * exp (- r * T))) with (K * (exp (- r * T) * (- r * 1))) by ring.
  apply derivable_pt_lim_scal.
  apply (derivable_pt_lim_comp (fun t => - r * t) exp).
  - apply derivable_pt_lim_scal, derivable_pt_lim_id.
  - apply derivable_pt_lim_exp.
Qed.

Lemma d1_derivable_strike :
  exists l, derivable_pt_lim (fun k => d1_formula S k T r sigma) K l.
Proof.
  eexists. unfold d1_formula.
  apply derivable_pt_lim_scal_right.
  apply derivable_pt_lim_plus; [ | apply derivable_pt_lim_const].
  apply (derivable_pt_lim_comp (fun k => S / k) ln).
  - apply (derivable_pt_lim_div (fun _ => S) (fun k => k)).
    + apply derivable_pt_lim_const.
    + apply derivable_pt_lim_id.
    + lra.
  - apply derivable_pt_lim_ln. now apply ratio_pos.
Qed.

Lemma d1_derivable_rate :
  exists l, derivable_pt_lim (fun q => d1_formula S K T q sigma) r l.
Proof.
  eexists. unfold d1_formula.
  apply derivable_pt_lim_scal_right.
  apply derivable_pt_lim_plus; [apply derivable_pt_lim_const | ].
  apply derivable_pt_lim_scal_right.
  apply derivable_pt_lim_plus; [apply derivable_pt_lim_id | apply derivable_pt_lim_const].
Qed.

Lemma d1_derivable_volatility :
  exists l, derivable_pt_lim (fun s => d1_formula S K T r s) sigma l.
Proof.
  eexists. unfold d1_formula.
  apply (derivable_pt_lim_div
           (fun s => ln (S / K) + (r + s ^ 2 / 2) * T) (fun s => s * sqrt T)).
  - apply derivable_pt_lim_plus; [apply derivable_pt_lim_const | ].
    apply derivable_pt_lim_scal_right.
    apply derivable_pt_lim_plus; [apply derivable_pt_lim_const | ].
    apply derivable_pt_lim_scal_right. apply (derivable_pt_lim_pow sigma 2).
  - apply derivable_pt_lim_scal_right, derivable_pt_lim_id.
  - pose proof (denominator_pos T sigma T_pos sigma_pos). lra.
Qed.

Lemma d1_derivable_maturity :
  exists l, derivable_pt_lim (fun t => d1_formula S K t r sigma) T l.
Proof.
  eexists. unfold d1_formula.
  apply (derivable_pt_lim_div
           (fun t => ln (S / K) + (r + sigma ^ 2 / 2) * t) (fun t => sigma * sqrt t)).
  - apply derivable_pt_lim_plus; [apply derivable_pt_lim_const | ].
    apply derivable_pt_lim_scal, derivable_pt_lim_id.
  - apply derivable_pt_lim_scal, derivable_pt_lim_sqrt. exact T_pos.
  - pose proof (denominator_pos T sigma T_pos sigma_pos). lra.
Qed.

(** Strike: the derivative is [- exp (- r T) * Phi d2]. *)
Lemma call_value_derivative_strike :
  derivable_pt_lim (fun k => call_value S k T r sigma) K
    (- (exp (- r * T) * norm_cdf (d2_formula S K T r sigma))).
Proof.
  set (x := d1_formula S K T r sigma). set (a := sigma * sqrt T).
  change (d2_formula S K T r sigma) with (x - a).
  pose proof density_terms_balance as Hbal. fold x a in Hbal.
  destruct d1_derivable_strike as (l & Hl).
  pose proof (price_derivative (fun _ => S) (fun k => d1_formula S k T r sigma)
                (fun _ => a) (fun k => k * exp (- r * T)) 0 l 0 (1 * exp (- r * T)) K
                (derivable_pt_lim_const S K) Hl (derivable_pt_lim_const a K)) as H.
  cbn beta in H. fold x in H.
  replace (- (exp (- r * T) * norm_cdf (x - a)))
    with (0 * norm_cdf x - 1 * exp (- r * T) * norm_cdf (x - a)
          + S * norm_pdf x * 0) by ring.
  apply H.
  - apply derivable_pt_lim_scal_right, derivable_pt_lim_id.
  - exact Hbal.
Qed.

(** Volatility: the derivative is [S * pdf d1 * sqrt T]. *)
Lemma call_value_derivative_volatility :
  derivable_pt_lim (fun s => call_value S K T r s) sigma
    (S * norm_pdf (d1_formula S K T r sigma) * sqrt T).
Proof.
  set (x := d1_formula S K T r sigma). set (a := sigma * sqrt T).
  pose proof density_terms_balance as Hbal. fold x a in Hbal.
  destruct d1_derivable_volatility as (l & Hl).
  pose proof (price_derivative (fun _ => S) (fun s => d1_formula S K T r s)
                (fun s => s * sqrt T) (fun _ => K * exp (- r * T))
                0 l (1 * sqrt T) 0 sigma
                (derivable_pt_lim_const S sigma) Hl) as H.
  cbn beta in H. fold x a in H.
  replace (S * norm_pdf x * sqrt T)
    with (0 * norm_cdf x - 0 * norm_cdf (x - a)
          + S * norm_pdf x * (1 * sqrt T)) by ring.
  apply H.
  - apply derivable_pt_lim_scal_right, derivable_pt_lim_id.
  - apply derivable_pt_lim_const.
  - exact Hbal.
Qed.

(** Rate: the derivative is [K * T * exp (- r T) * Phi d2]. *)
Lemma call_value_derivative_rate :
  derivable_pt_lim (fun q => call_value S K T q sigma) r
    (K * T * exp (- r * T) * norm_cdf (d2_formula S K T r sigma)).
Proof.
  set (x := d1_formula S K T r sigma). set (a := sigma * sqrt T).
  change (d2_formula S K T r sigma) with (x - a).
  pose proof density_terms_balance as Hbal. fold x a in Hbal.
  destruct d1_derivable_rate as (l & Hl).
  pose proof (price_derivative (fun _ => S) (fun q => d1_formula S K T q sigma)
                (fun _ => a) (fun q => K * exp (- q * T))
                0 l 0 (- (K * T * exp (- r * T))) r
                (derivable_pt_lim_const S r) Hl (derivable_pt_lim_const a r)
                discount_derivative_rate) as H.
  cbn beta in H. fold x in H.
  replace (K * T * exp (- r * T) * norm_cdf (x - a))
    with (0 * norm_cdf x - - (K * T * exp (- r * T)) * norm_cdf (x - a)
          + S * norm_pdf x * 0) by ring.
  apply H. exact Hbal.
Qed.

(** Maturity: the derivative is
    [K * r * exp (- r T) * Phi d2 + S * pdf d1 * sigma / (2 sqrt T)]. *)
Lemma call_value_derivative_maturity :
  derivable_pt_lim (fun t => call_value S K t r sigma) T
    (K * r * exp (- r * T) * norm_cdf (d2_formula S K T r sigma)
     + S * norm_pdf (d1_formula S K T r sigma) * (sigma * / (2 * sqrt T))).
Proof.
  set (x := d1_formula S K T r sigma). set (a := sigma * sqrt T).
  change (d2_formula S K T r sigma) with (x - a).
  pose proof density_terms_balance as Hbal. fold x a in Hbal.
  destruct d1_derivable_maturity as (l & Hl).
  pose proof (price_derivative (fun _ => S) (fun t => d1_formula S K t r sigma)
                (fun t => sigma * sqrt t) (fun t => K * exp (- r * t))
                0 l (sigma * / (2 * sqrt T)) (- (K * r * exp (- r * T))) T
                (derivable_pt_lim_const S T) Hl) as H.
  cbn beta in H. fold x a in H.
  replace (K * r * exp (- r * T) * norm_cdf (x - a)
           + S * norm_pdf x * (sigma * / (2 * sqrt T)))
    with (0 * norm_cdf x - - (K * r * exp (- r * T)) * norm_cdf (x - a)
          + S * norm_pdf x * (sigma * / (2 * sqrt T))) by ring.
  apply H.
  - apply derivable_pt_lim_scal, derivable_pt_lim_sqrt. exact T_pos.
  - exact discount_derivative_maturity.
  - exact Hbal.
Qed.

End Sensitivities.

Lemma decreasing_of_derivative (f f' : R -> R) (a b : R) :
  a <= b ->
  (forall c, a <= c <= b -> derivable_pt_lim f c (f' c)) ->
  (forall c, a <= c <= b -> f' c <= 0) ->
  f b <= f a.
Proof.
  intros Hab Hd Hneg.
  pose proof (increasing_of_derivative (fun t => - f t) (fun t => - f' t) a b Hab) as H.
  cbn beta in H.
  enough (- f a <= - f b) by lra.
  apply H.
  - intros c Hc. apply derivable_pt_lim_opp. now apply Hd.
  - intros c Hc. specialize (Hneg c Hc). lra.
Qed.

Lemma discount_pos (K T r : R) : 0 < K -> 0 < K * exp (- r * T).
Proof. intros HK. apply Rmult_lt_0_compat; [exact HK | apply exp_pos]. Qed.

(** *** Strike *)

Lemma call_value_strike_increment (S T r sigma K1 K2 : R) :
  0 < S -> 0 < T -> 0 < sigma -> 0 < K1 -> K1 <= K2 ->
  - (exp (- r * T) * (K2 - K1))
  <= call_value S K2 T r sigma - call_value S K1 T r sigma <= 0.
Proof.
  intros HS HT Hs H1 [Hlt | <-]; [ | lra].
  destruct (MVT_cor2 (fun k => call_value S k T r sigma)
              (fun k => - (exp (- r * T) * norm_cdf (d2_formula S k T r sigma)))
              K1 K2 Hlt) as (c & Heq & Hc).
  - intros c Hc. apply call_value_derivative_strike; lra.
  - cbn beta in Heq. rewrite Heq.
    pose proof (norm_cdf_range (d2_formula S c T r sigma)) as [Hlo Hhi].
    pose proof (exp_pos (- r * T)) as He.
    assert (0 <= exp (- r * T) * norm_cdf (d2_formula S c T r sigma) <= exp (- r * T)) by nra.
    split; nra.
Qed.

(** *** Volatility *)

Lemma call_value_volatility_increasing (S K T r sigma1 sigma2 : R) :
  0 < S -> 0 < K -> 0 < T -> 0 < sigma1 -> sigma1 <= sigma2 ->
  call_value S K T r sigma1 <= call_value S K T r sigma2.
Proof.
  intros HS HK HT H1 H12.
  apply (increasing_of_derivative (fun s => call_value S K T r s)
           (fun s => S * norm_pdf (d1_formula S K T r s) * sqrt T) sigma1 sigma2 H12).
  - intros c Hc. apply call_value_derivative_volatility; lra.
  - intros c _. pose proof (norm_pdf_pos (d1_formula S K T r c)).
    pose proof (sqrt_pos T).
    apply Rmult_le_pos; [apply Rmult_le_pos; lra | assumption].
Qed.

(** *** Rate *)

Lemma call_value_rate_increasing (S K T sigma r1 r2 : R) :
  0 < S -> 0 < K -> 0 < T -> 0 < sigma -> r1 <= r2 ->
  call_value S K T r1 sigma <= call_value S K T r2 sigma.
Proof.
  intros HS HK HT Hs H12.
  apply (increasing_of_derivative (fun q => call_value S K T q sigma)
           (fun q => K * T * exp (- q * T) * norm_cdf (d2_formula S K T q sigma))
           r1 r2 H12).
  - intros c _. now apply call_value_derivative_rate.
  - intros c _. pose proof (norm_cdf_range (d2_formula S K T c sigma)) as [Hlo _].
    pose proof (exp_pos (- c * T)).
    apply Rmult_le_pos; [ | exact Hlo].
    apply Rmult_le_pos; [apply Rmult_le_pos; lra | lra].
Qed.

Lemma put_value_rate_decreasing (S K T sigma r1 r2 : R) :
  0 < S -> 0 < K -> 0 < T -> 0 < sigma -> r1 <= r2 ->
  put_value S K T r2 sigma <= put_value S K T r1 sigma.
Proof.
  intros HS HK HT Hs H12.
  pose proof (decreasing_of_derivative
                (fun q => call_value S K T q sigma - S + K * exp (- q * T))
                (fun q => K * T * exp (- q * T) * norm_cdf (d2_formula S K T q sigma)
                          - 0 + - (K * T * exp (- q * T)))
                r1 r2 H12) as H.
  cbn beta in H.
  pose proof (call_minus_put_value S K T r1 sigma).
  pose proof (call_minus_put_value S K T r2 sigma).
  enough (call_value S K T r2 sigma - S + K * exp (- r2 * T)
          <= call_value S K T r1 sigma - S + K * exp (- r1 * T)) by lra.
  apply H.
  - intros c _. apply derivable_pt_lim_plus.
    + apply derivable_pt_lim_minus;
        [now apply call_value_derivative_rate | apply derivable_pt_lim_const].
    + apply discount_derivative_rate.
  - intros c _. pose proof (norm_cdf_range (d2_formula S K T c sigma)) as [_ Hhi].
    pose proof (exp_pos (- c * T)).
    assert (0 <= K * T * exp (- c * T)).
    { apply Rmult_le_pos; [apply Rmult_le_pos; lra | lra]. }
    nra.
Qed.

(** *** Maturity *)

Lemma call_value_maturity_increasing (S K r sigma T1 T2 : R) :
  0 < S -> 0 < K -> 0 <= r -> 0 < sigma -> 0 < T1 -> T1 <= T2 ->
  call_value S K T1 r sigma <= call_value S K T2 r sigma.
Proof.
  intros HS HK Hr Hs H1 H12.
  apply (increasing_of_derivative (fun t => call_value S K t r sigma)
           (fun t => K * r * exp (- r * t) * norm_cdf (d2_formula S K t r sigma)
                     + S * norm_pdf (d1_formula S K t r sigma)
                       * (sigma * / (2 * sqrt t)))
           T1 T2 H12).
  - intros c Hc. apply call_value_derivative_maturity; lra.
  - intros c Hc.
    pose proof (norm_cdf_range (d2_formula S K c r sigma)) as [Hlo _].
    pose proof (norm_pdf_pos (d1_formula S K c r sigma)).
    pose proof (exp_pos (- r * c)).
    assert (0 < sqrt c) by (apply sqrt_lt_R0; lra).
    assert (0 < / (2 * sqrt c)) by (apply Rinv_0_lt_compat; lra).
    apply Rplus_le_le_0_compat.
    + apply Rmult_le_pos; [ | exact Hlo].
      apply Rmult_le_pos; [apply Rmult_le_pos; lra | lra].
    + apply Rmult_le_pos; [apply Rmult_le_pos; lra | ].
      apply Rmult_le_pos; lra.
Qed.

(** ** Further properties of the pricer *)









(** X2.  On valid inputs the call price lies between
    [max (S - K exp (- r T)) 0] and [S], and the put price between
    [max (K exp (- r T) - S) 0] and [K exp (- r T)]. *)
Theorem black_scholes_price_bounds (S K T r sigma : R) :
  0 < S -> 0 < K -> 0 < T -> 0 < sigma ->
  exists c p,
    black_scholes S K T r sigma "call" = Returns (Some c)
    /\ black_scholes S K T r sigma "put" = Returns (Some p)
    /\ Rmax (S - K * exp (- r * T)) 0 <= c <= S
    /\ Rmax (K * exp (- r * T) - S) 0 <= p <= K * exp (- r * T).
Proof.
  intros HS HK HT Hs.
  exists (call_value S K T r sigma), (put_value S K T r sigma).
  pose proof (call_value_nonneg S K T r sigma HS HK HT Hs) as Hc0.
  pose proof (put_value_nonneg S K T r sigma HS HK HT Hs) as Hp0.
  pose proof (call_value_le_spot S K T r sigma HS HK HT Hs) as Hc1.
  pose proof (call_minus_put_value S K T r sigma) as Hpar.
  split_conj.
  - now apply black_scholes_call_valid.
  - now apply black_scholes_put_valid.
  - apply Rmax_lub; lra.
  - exact Hc1.
  - apply Rmax_lub; lra.
  - lra.
Qed.

Lemma black_scholes_price_bounds_witness :
  exists c p,
    black_scholes 100 100 1 0.05 0.2 "call" = Returns (Some c)
    /\ black_scholes 100 100 1 0.05 0.2 "put" = Returns (Some p)
    /\ Rmax (100 - 100 * exp (- (0.05) * 1)) 0 <= c <= 100
    /\ Rmax (100 * exp (- (0.05) * 1) - 100) 0 <= p <= 100 * exp (- (0.05) * 1).
Proof.
  apply (black_scholes_price_bounds 100 100 1 0.05 0.2); lra.
Defined.

Lemma d1_formula_scale (l S K T r sigma : R) :
  0 < l -> 0 < K -> d1_formula (l * S) (l * K) T r sigma = d1_formula S K T r sigma.
Proof.
  intros Hl HK. unfold d1_formula.
  replace (l * S / (l * K)) with (S / K) by (field; lra). reflexivity.
Qed.

(** X3.  Prices are homogeneous in the currency unit: multiplying spot
    and strike by the same positive factor multiplies both prices by it. *)
Theorem black_scholes_homogeneous (l S K T r sigma : R) :
  0 < l -> 0 < S -> 0 < K -> 0 < T -> 0 < sigma ->
  exists c p,
    black_scholes S K T r sigma "call" = Returns (Some c)
    /\ black_scholes S K T r sigma "put" = Returns (Some p)
    /\ black_scholes (l * S) (l * K) T r sigma "call" = Returns (Some (l * c))
    /\ black_scholes (l * S) (l * K) T r sigma "put" = Returns (Some (l * p)).
Proof.
  intros Hl HS HK HT Hs.
  assert (HlS : 0 < l * S) by now apply Rmult_lt_0_compat.
  assert (HlK : 0 < l * K) by now apply Rmult_lt_0_compat.
  exists (call_value S K T r sigma), (put_value S K T r sigma).
  rewrite !black_scholes_call_valid, !black_scholes_put_valid by assumption.
  split_conj; try reflexivity; do 2 f_equal;
    unfold call_value, put_value, d2_formula;
    rewrite d1_formula_scale by assumption; ring.
Qed.

Lemma black_scholes_homogeneous_witness :
  exists c p,
    black_scholes 100 100 1 0.05 0.2 "call" = Returns (Some c)
    /\ black_scholes 100 100 1 0.05 0.2 "put" = Returns (Some p)
    /\ black_scholes (2 * 100) (2 * 100) 1 0.05 0.2 "call" = Returns (Some (2 * c))
    /\ black_scholes (2 * 100) (2 * 100) 1 0.05 0.2 "put" = Returns (Some (2 * p)).
Proof.
  apply (black_scholes_homogeneous 2 100 100 1 0.05 0.2); lra.
Defined.

Lemma d1_negative_volatility (S K T r sigma : R) :
  0 < S -> 0 < K -> 0 < T -> 0 < sigma ->
  d1 S K T r (- sigma) = Fin (- d1_formula S K T r sigma).
Proof.
  intros HS HK HT Hs. unfold d1, d1_formula.
  rewrite np_log_positive by now apply ratio_pos.
  rewrite np_sqrt_nonneg by lra.
  pose proof (denominator_pos T sigma HT Hs) as Hden.
  rewrite xmul_nonzero by lra. cbn [xadd].
  rewrite xdiv_nonzero by lra.
  pose proof (sqrt_lt_R0 T HT) as Hq.
  f_equal. replace 0.5 with (/ 2) by lra. field. split; lra.
Qed.

(** X4.  A negative volatility is not rejected: with [sigma > 0] the
    call at [- sigma] returns minus the put price at [sigma], and the put
    at [- sigma] minus the call price at [sigma], so neither is positive. *)
Theorem black_scholes_negative_volatility (S K T r sigma : R) :
  0 < S -> 0 < K -> 0 < T -> 0 < sigma ->
  exists c p,
    black_scholes S K T r sigma "call" = Returns (Some c)
    /\ black_scholes S K T r sigma "put" = Returns (Some p)
    /\ black_scholes S K T r (- sigma) "call" = Returns (Some (- p))
    /\ black_scholes S K T r (- sigma) "put" = Returns (Some (- c))
    /\ - p <= 0 /\ - c <= 0.
Proof.
  intros HS HK HT Hs.
  exists (call_value S K T r sigma), (put_value S K T r sigma).
  pose proof (call_value_nonneg S K T r sigma HS HK HT Hs) as Hc0.
  pose proof (put_value_nonneg S K T r sigma HS HK HT Hs) as Hp0.
  assert (Hd2 : d2 (d1 S K T r (- sigma)) T (- sigma)
                = Fin (- d2_formula S K T r sigma)).
  { unfold d2. rewrite d1_negative_volatility by assumption.
    rewrite np_sqrt_nonneg by lra.
    pose proof (denominator_pos T sigma HT Hs) as Hden.
    rewrite xmul_nonzero by lra. cbn [xsub value].
    f_equal. unfold d2_formula. ring. }
  split_conj.
  - now apply black_scholes_call_valid.
  - now apply black_scholes_put_valid.
  - unfold black_scholes. destruct (Req_dec_T K 0); [lra | ].
    cbn [String.eqb Ascii.eqb Bool.eqb].
    rewrite Hd2, d1_negative_volatility by assumption. cbn [cdf xneg bind].
    do 2 f_equal. unfold put_value. ring.
  - unfold black_scholes. destruct (Req_dec_T K 0); [lra | ].
    cbn [String.eqb Ascii.eqb Bool.eqb].
    rewrite Hd2, d1_negative_volatility by assumption. cbn [cdf xneg bind].
    do 2 f_equal. unfold call_value. rewrite !Ropp_involutive. ring.
  - lra.
  - lra.
Qed.

Lemma black_scholes_negative_volatility_witness :
  exists c p,
    black_scholes 100 100 1 0.05 0.2 "call" = Returns (Some c)
    /\ black_scholes 100 100 1 0.05 0.2 "put" = Returns (Some p)
    /\ black_scholes 100 100 1 0.05 (- (0.2)) "call" = Returns (Some (- p))
    /\ black_scholes 100 100 1 0.05 (- (0.2)) "put" = Returns (Some (- c))
    /\ - p <= 0 /\ - c <= 0.
Proof.
  apply (black_scholes_negative_volatility 100 100 1 0.05 0.2); lra.
Defined.

(** X5.  On valid inputs the call and the put have the same price
    exactly when the spot is the discounted strike [K exp (- r T)]. *)
Theorem black_scholes_equal_prices (S K T r sigma : R) :
  0 < S -> 0 < K -> 0 < T -> 0 < sigma ->
  (black_scholes S K T r sigma "call" = black_scholes S K T r sigma "put"
   <-> S = K * exp (- r * T)).
Proof.
  intros HS HK HT Hs.
  rewrite black_scholes_call_valid, black_scholes_put_valid by assumption.
  pose proof (call_minus_put_value S K T r sigma) as Hpar.
  split.
  - intros H. injection H as H. lra.
  - intros H. do 2 f_equal. lra.
Qed.

Lemma black_scholes_equal_prices_witness :
  black_scholes 100 100 1 0 0.2 "call" = black_scholes 100 100 1 0 0.2 "put"
  <-> 100 = 100 * exp (- 0 * 1).
Proof.
  apply (black_scholes_equal_prices 100 100 1 0 0.2); lra.
Defined.

(** X6.  The call price never rises by more than the spot does, and the
    put price never falls by more: for [0 < S1 <= S2] the call changes by
    an amount in [[0, S2 - S1]] and the put by an amount in
    [[- (S2 - S1), 0]]. *)
Theorem spot_increment_bounds (K T r sigma S1 S2 : R) :
  0 < K -> 0 < T -> 0 < sigma -> 0 < S1 -> S1 <= S2 ->
  exists c1 c2 p1 p2,
    black_scholes S1 K T r sigma "call" = Returns (Some c1)
    /\ black_scholes S2 K T r sigma "call" = Returns (Some c2)
    /\ black_scholes S1 K T r sigma "put" = Returns (Some p1)
    /\ black_scholes S2 K T r sigma "put" = Returns (Some p2)
    /\ 0 <= c2 - c1 <= S2 - S1
    /\ - (S2 - S1) <= p2 - p1 <= 0.
Proof.
  intros HK HT Hs H1 H12.
  exists (call_value S1 K T r sigma), (call_value S2 K T r sigma),
         (put_value S1 K T r sigma), (put_value S2 K T r sigma).
  pose proof (call_value_increment K T r sigma HK HT Hs S1 S2 H1 H12) as [Hlo Hhi].
  pose proof (call_minus_put_value S1 K T r sigma) as Hp1.
  pose proof (call_minus_put_value S2 K T r sigma) as Hp2.
  split_conj; try (apply black_scholes_call_valid; lra);
    try (apply black_scholes_put_valid; lra); lra.
Qed.

Lemma spot_increment_bounds_witness :
  exists c1 c2 p1 p2,
    black_scholes 90 100 1 0.05 0.2 "call" = Returns (Some c1)
    /\ black_scholes 110 100 1 0.05 0.2 "call" = Returns (Some c2)
    /\ black_scholes 90 100 1 0.05 0.2 "put" = Returns (Some p1)
    /\ black_scholes 110 100 1 0.05 0.2 "put" = Returns (Some p2)
    /\ 0 <= c2 - c1 <= 110 - 90
    /\ - (110 - 90) <= p2 - p1 <= 0.
Proof.
  apply (spot_increment_bounds 100 1 0.05 0.2 90 110); lra.
Defined.

(** X7.  Monotonicity in the strike: for [0 < K1 <= K2] the call price
    at [K2] is at most the call price at [K1], the put price at [K2] at
    least the put price at [K1], and neither moves by more than the
    discounted change [exp (- r T) * (K2 - K1)] of the strike. *)
Theorem monotone_in_strike (S T r sigma K1 K2 : R) :
  0 < S -> 0 < T -> 0 < sigma -> 0 < K1 -> K1 <= K2 ->
  exists c1 c2 p1 p2,
    black_scholes S K1 T r sigma "call" = Returns (Some c1)
    /\ black_scholes S K2 T r sigma "call" = Returns (Some c2)
    /\ black_scholes S K1 T r sigma "put" = Returns (Some p1)
    /\ black_scholes S K2 T r sigma "put" = Returns (Some p2)
    /\ 0 <= c1 - c2 <= exp (- r * T) * (K2 - K1)
    /\ 0 <= p2 - p1 <= exp (- r * T) * (K2 - K1).
Proof.
  intros HS HT Hs H1 H12.
  exists (call_value S K1 T r sigma), (call_value S K2 T r sigma),
         (put_value S K1 T r sigma), (put_value S K2 T r sigma).
  pose proof (call_value_strike_increment S T r sigma K1 K2 HS HT Hs H1 H12)
    as [Hlo Hhi].
  pose proof (call_minus_put_value S K1 T r sigma) as Hp1.
  pose proof (call_minus_put_value S K2 T r sigma) as Hp2.
  split_conj; try (apply black_scholes_call_valid; lra);
    try (apply black_scholes_put_valid; lra); lra.
Qed.

Lemma monotone_in_strike_witness :
  exists c1 c2 p1 p2,
    black_scholes 100 90 1 0.05 0.2 "call" = Returns (Some c1)
    /\ black_scholes 100 110 1 0.05 0.2 "call" = Returns (Some c2)
    /\ black_scholes 100 90 1 0.05 0.2 "put" = Returns (Some p1)
    /\ black_scholes 100 110 1 0.05 0.2 "put" = Returns (Some p2)
    /\ 0 <= c1 - c2 <= exp (- (0.05) * 1) * (110 - 90)
    /\ 0 <= p2 - p1 <= exp (- (0.05) * 1) * (110 - 90).
Proof.
  apply (monotone_in_strike 100 1 0.05 0.2 90 110); lra.
Defined.

(** X8.  Monotonicity in the volatility: for [0 < sigma1 <= sigma2]
    both the call price and the put price at [sigma1] are at most those
    at [sigma2], and the two rise by the same amount. *)
Theorem monotone_in_volatility (S K T r sigma1 sigma2 : R) :
  0 < S -> 0 < K -> 0 < T -> 0 < sigma1 -> sigma1 <= sigma2 ->
  exists c1 c2 p1 p2,
    black_scholes S K T r sigma1 "call" = Returns (Some c1)
    /\ black_scholes S K T r sigma2 "call" = Returns (Some c2)
    /\ black_scholes S K T r sigma1 "put" = Returns (Some p1)
    /\ black_scholes S K T r sigma2 "put" = Returns (Some p2)
    /\ c1 <= c2 /\ p1 <= p2 /\ c2 - c1 = p2 - p1.
Proof.
  intros HS HK HT H1 H12.
  exists (call_value S K T r sigma1), (call_value S K T r sigma2),
         (put_value S K T r sigma1), (put_value S K T r sigma2).
  pose proof (call_value_volatility_increasing S K T r sigma1 sigma2 HS HK HT H1 H12).
  pose proof (call_minus_put_value S K T r sigma1) as Hp1.
  pose proof (call_minus_put_value S K T r sigma2) as Hp2.
  split_conj; try (apply black_scholes_call_valid; lra);
    try (apply black_scholes_put_valid; lra); lra.
Qed.

Lemma monotone_in_volatility_witness :
  exists c1 c2 p1 p2,
    black_scholes 100 100 1 0.05 0.1 "call" = Returns (Some c1)
    /\ black_scholes 100 100 1 0.05 0.5 "call" = Returns (Some c2)
    /\ black_scholes 100 100 1 0.05 0.1 "put" = Returns (Some p1)
    /\ black_scholes 100 100 1 0.05 0.5 "put" = Returns (Some p2)
    /\ c1 <= c2 /\ p1 <= p2 /\ c2 - c1 = p2 - p1.
Proof.
  apply (monotone_in_volatility 100 100 1 0.05 0.1 0.5); lra.
Defined.

(** X9.  Monotonicity in the rate: for [r1 <= r2] the call price at
    [r1] is at most the call price at [r2] and the put price at [r1] at
    least the put price at [r2]. *)
Theorem monotone_in_rate (S K T sigma r1 r2 : R) :
  0 < S -> 0 < K -> 0 < T -> 0 < sigma -> r1 <= r2 ->
  exists c1 c2 p1 p2,
    black_scholes S K T r1 sigma "call" = Returns (Some c1)
    /\ black_scholes S K T r2 sigma "call" = Returns (Some c2)
    /\ black_scholes S K T r1 sigma "put" = Returns (Some p1)
    /\ black_scholes S K T r2 sigma "put" = Returns (Some p2)
    /\ c1 <= c2 /\ p2 <= p1.
Proof.
  intros HS HK HT Hs H12.
  exists (call_value S K T r1 sigma), (call_value S K T r2 sigma),
         (put_value S K T r1 sigma), (put_value S K T r2 sigma).
  pose proof (call_value_rate_increasing S K T sigma r1 r2 HS HK HT Hs H12).
  pose proof (put_value_rate_decreasing S K T sigma r1 r2 HS HK HT Hs H12).
  split_conj; try (apply black_scholes_call_valid; lra);
    try (apply black_scholes_put_valid; lra); lra.
Qed.

Lemma monotone_in_rate_witness :
  exists c1 c2 p1 p2,
    black_scholes 100 100 1 (- (0.01)) 0.2 "call" = Returns (Some c1)
    /\ black_scholes 100 100 1 0.05 0.2 "call" = Returns (Some c2)
    /\ black_scholes 100 100 1 (- (0.01)) 0.2 "put" = Returns (Some p1)
    /\ black_scholes 100 100 1 0.05 0.2 "put" = Returns (Some p2)
    /\ c1 <= c2 /\ p2 <= p1.
Proof.
  apply (monotone_in_rate 100 100 1 0.2 (- (0.01)) 0.05); lra.
Defined.

(** X10.  Monotonicity in the maturity: with a rate that is not
    negative and [0 < T1 <= T2], the call price at [T1] is at most the
    call price at [T2]. *)
Theorem call_monotone_in_maturity (S K r sigma T1 T2 : R) :
  0 < S -> 0 < K -> 0 <= r -> 0 < sigma -> 0 < T1 -> T1 <= T2 ->
  exists c1 c2,
    black_scholes S K T1 r sigma "call" = Returns (Some c1)
    /\ black_scholes S K T2 r sigma "call" = Returns (Some c2)
    /\ c1 <= c2.
Proof.
  intros HS HK Hr Hs H1 H12.
  exists (call_value S K T1 r sigma), (call_value S K T2 r sigma).
  pose proof (call_value_maturity_increasing S K r sigma T1 T2 HS HK Hr Hs H1 H12).
  split_conj; try (apply black_scholes_call_valid; lra); lra.
Qed.

Lemma call_monotone_in_maturity_witness :
  exists c1 c2,
    black_scholes 100 100 1 0.05 0.2 "call" = Returns (Some c1)
    /\ black_scholes 100 100 2 0.05 0.2 "call" = Returns (Some c2)
    /\ c1 <= c2.
Proof.
  apply (call_monotone_in_maturity 100 100 0.05 0.2 1 2); lra.
Defined.

(** ** Further properties of the sweep *)

Lemma sample_between (start stop : R) (num i : nat) :
  (2 <= num)%nat -> (i < num)%nat ->
  Rmin start stop <= sample start stop num i <= Rmax start stop.
Proof.
  intros Hnum Hi.
  assert (Hd : 0 < INR (num - 1)) by (apply lt_0_INR; lia).
  assert (Hi' : INR i <= INR (num - 1)) by (apply le_INR; lia).
  pose proof (pos_INR i) as Hi0.
  assert (Ht : 0 <= INR i / INR (num - 1) <= 1).
  { split.
    - apply Rmult_le_pos; [exact Hi0 | left; now apply Rinv_0_lt_compat].
    - apply (Rmult_le_reg_r (INR (num - 1))); [exact Hd | ].
      unfold Rdiv. rewrite Rmult_assoc, Rinv_l by lra. lra. }
  replace (sample start stop num i)
    with (start + INR i / INR (num - 1) * (stop - start))
    by (unfold sample; field; lra).
  set (t := INR i / INR (num - 1)) in *.
  pose proof (Rmin_l start stop). pose proof (Rmin_r start stop).
  pose proof (Rmax_l start stop). pose proof (Rmax_r start stop).
  split; nra.
Qed.

Lemma sample_pos (start stop : R) (num i : nat) :
  (2 <= num)%nat -> (i < num)%nat -> 0 < start -> 0 < stop ->
  0 < sample start stop num i.
Proof.
  intros Hnum Hi H1 H2. pose proof (sample_between start stop num i Hnum Hi) as [Hlo _].
  apply Rlt_le_trans with (Rmin start stop); [ | exact Hlo].
  now apply Rmin_glb_lt.
Qed.

Lemma sample_decreasing (start stop : R) (num i j : nat) :
  (2 <= num)%nat -> stop <= start -> (i <= j)%nat ->
  sample start stop num j <= sample start stop num i.
Proof.
  intros Hnum Hle Hij. unfold sample.
  assert (Hd : 0 < INR (num - 1)) by (apply lt_0_INR; lia).
  apply le_INR in Hij.
  apply Rplus_le_compat_l. unfold Rdiv.
  apply Rmult_le_compat_r; [left; now apply Rinv_0_lt_compat | ].
  nra.
Qed.

(** X11.  Whatever the two ranges (ascending, constant or inverted,
    positive or not), with at least two steps and a non-zero strike the
    sweep ends with two grids of [steps] rows of [steps] cells, and the
    cell of row [i] and column [j] holds what the pricer returns for
    sample [j] of the spot range and sample [i] of the volatility range. *)
Theorem sweep_cells_any_range (K T r : R) (steps : nat)
  (min_spot max_spot min_volatility max_volatility : R) :
  (2 <= steps)%nat -> K <> 0 ->
  exists st,
    sweep K T r steps min_spot max_spot min_volatility max_volatility = Some st
    /\ shape steps steps (call_prices st) /\ shape steps steps (put_prices st)
    /\ forall i j, (i < steps)%nat -> (j < steps)%nat ->
         getitem (call_prices st) i j
           = as_float (black_scholes (sample min_spot max_spot steps j) K T r
                         (sample min_volatility max_volatility steps i) "call")
         /\ getitem (put_prices st) i j
           = as_float (black_scholes (sample min_spot max_spot steps j) K T r
                         (sample min_volatility max_volatility steps i) "put").
Proof.
  intros Hsteps HK.
  destruct (sweep_spec K T r steps min_spot max_spot min_volatility max_volatility HK)
    as (st & Hrun & Hsh & Hget & _).
  exists st. split_conj.
  - exact Hrun.
  - exact (Hsh true).
  - exact (Hsh false).
  - intros i j Hi Hj.
    pose proof (linspace_nth min_volatility max_volatility steps i Hsteps Hi) as Hv.
    pose proof (linspace_nth min_spot max_spot steps j Hsteps Hj) as Hs.
    split.
    + pose proof (Hget true i _ j _ Hv Hs) as Hc. cbn [prices] in Hc. rewrite Hc.
      pose proof (black_scholes_returns K T r HK (sample min_spot max_spot steps j)
                    (sample min_volatility max_volatility steps i) true) as Hr.
      cbn [kind_name] in Hr. now rewrite Hr.
    + pose proof (Hget false i _ j _ Hv Hs) as Hc. cbn [prices] in Hc. rewrite Hc.
      pose proof (black_scholes_returns K T r HK (sample min_spot max_spot steps j)
                    (sample min_volatility max_volatility steps i) false) as Hr.
      cbn [kind_name] in Hr. now rewrite Hr.
Qed.

Lemma sweep_cells_any_range_witness :
  exists st,
    heatmap_sweep 100 1 0.05 150 50 0 1 = Some st
    /\ shape 10 10 (call_prices st) /\ shape 10 10 (put_prices st).
Proof.
  destruct (sweep_cells_any_range 100 1 0.05 10 150 50 0 1 ltac:(lia) ltac:(lra))
    as (st & Hrun & Hc & Hp & _).
  exists st. split_conj; assumption.
Defined.

Section ValidSweep.

Variables K T r : R.
Variable steps : nat.
Variables min_spot max_spot min_volatility max_volatility : R.
Hypothesis steps_ge_2 : (2 <= steps)%nat.
Hypothesis K_pos : 0 < K.
Hypothesis T_pos : 0 < T.
Hypothesis min_spot_pos : 0 < min_spot.
Hypothesis max_spot_pos : 0 < max_spot.
Hypothesis min_volatility_pos : 0 < min_volatility.
Hypothesis max_volatility_pos : 0 < max_volatility.

(** The call and put prices the cell of row [i] and column [j] is to hold. *)
Definition cell_call (i j : nat) : R :=
  call_value (sample min_spot max_spot steps j) K T r
    (sample min_volatility max_volatility steps i).

Definition cell_put (i j : nat) : R :=
  put_value (sample min_spot max_spot steps j) K T r
    (sample min_volatility max_volatility steps i).

Lemma valid_cells :
  exists st,
    sweep K T r steps min_spot max_spot min_volatility max_volatility = Some st
    /\ forall i j, (i < steps)%nat -> (j < steps)%nat ->
         getitem (call_prices st) i j = Some (Some (cell_call i j))
         /\ getitem (put_prices st) i j = Some (Some (cell_put i j)).
Proof.
  destruct (sweep_spec K T r steps min_spot max_spot min_volatility max_volatility
              ltac:(lra)) as (st & Hrun & _ & Hget & _).
  exists st. split; [exact Hrun | ].
  intros i j Hi Hj.
  pose proof (linspace_nth min_volatility max_volatility steps i steps_ge_2 Hi) as Hv.
  pose proof (linspace_nth min_spot max_spot steps j steps_ge_2 Hj) as Hs.
  pose proof (sample_pos min_spot max_spot steps j steps_ge_2 Hj
                min_spot_pos max_spot_pos) as HS.
  pose proof (sample_pos min_volatility max_volatility steps i steps_ge_2 Hi
                min_volatility_pos max_volatility_pos) as Hsig.
  split.
  - pose proof (Hget true i _ j _ Hv Hs) as Hc. cbn [prices] in Hc. rewrite Hc.
    unfold price_float. cbn [kind_name].
    now rewrite black_scholes_call_valid.
  - pose proof (Hget false i _ j _ Hv Hs) as Hc. cbn [prices] in Hc. rewrite Hc.
    unfold price_float. cbn [kind_name].
    now rewrite black_scholes_put_valid.
Qed.

End ValidSweep.

Lemma values_ordered_by_spot (K T r sigma S1 S2 : R) :
  0 < K -> 0 < T -> 0 < sigma -> 0 < S1 -> S1 <= S2 ->
  call_value S1 K T r sigma <= call_value S2 K T r sigma
  /\ put_value S2 K T r sigma <= put_value S1 K T r sigma.
Proof.
  intros HK HT Hs H1 H12.
  pose proof (call_value_increment K T r sigma HK HT Hs S1 S2 H1 H12) as [Hlo Hhi].
  pose proof (call_minus_put_value S1 K T r sigma).
  pose proof (call_minus_put_value S2 K T r sigma).
  split; lra.
Qed.

Lemma values_ordered_by_volatility (S K T r sigma1 sigma2 : R) :
  0 < S -> 0 < K -> 0 < T -> 0 < sigma1 -> sigma1 <= sigma2 ->
  call_value S K T r sigma1 <= call_value S K T r sigma2
  /\ put_value S K T r sigma1 <= put_value S K T r sigma2.
Proof.
  intros HS HK HT H1 H12.
  pose proof (call_value_volatility_increasing S K T r sigma1 sigma2 HS HK HT H1 H12).
  pose proof (call_minus_put_value S K T r sigma1).
  pose proof (call_minus_put_value S K T r sigma2).
  split; lra.
Qed.

(** X12.  With a positive strike and maturity and ranges whose ends are
    positive, no cell of the two grids is [nan]: the cell of row [i] and
    column [j] of the call grid holds a real [c] and that of the put grid
    a real [p] with [c - p = S_j - K exp (- r T)], [0 <= c <= S_j] and
    [0 <= p <= K exp (- r T)], [S_j] being sample [j] of the spot range. *)
Theorem sweep_cells_real (K T r : R) (steps : nat)
  (min_spot max_spot min_volatility max_volatility : R) :
  (2 <= steps)%nat -> 0 < K -> 0 < T ->
  0 < min_spot -> 0 < max_spot -> 0 < min_volatility -> 0 < max_volatility ->
  exists st,
    sweep K T r steps min_spot max_spot min_volatility max_volatility = Some st
    /\ forall i j, (i < steps)%nat -> (j < steps)%nat ->
       exists c p,
         getitem (call_prices st) i j = Some (Some c)
         /\ getitem (put_prices st) i j = Some (Some p)
         /\ c - p = sample min_spot max_spot steps j - K * exp (- r * T)
         /\ 0 <= c <= sample min_spot max_spot steps j
         /\ 0 <= p <= K * exp (- r * T).
Proof.
  intros Hsteps HK HT Hs1 Hs2 Hv1 Hv2.
  destruct (valid_cells K T r steps min_spot max_spot min_volatility
              max_volatility Hsteps HK HT Hs1 Hs2 Hv1 Hv2) as (st & Hrun & Hcells).
  exists st. split; [exact Hrun | ].
  intros i j Hi Hj. destruct (Hcells i j Hi Hj) as [Hc Hp].
  exists (cell_call K T r steps min_spot max_spot min_volatility max_volatility i j),
         (cell_put K T r steps min_spot max_spot min_volatility max_volatility i j).
  unfold cell_call, cell_put in *.
  set (S := sample min_spot max_spot steps j) in *.
  set (sigma := sample min_volatility max_volatility steps i) in *.
  assert (HS : 0 < S) by now apply sample_pos.
  assert (Hsig : 0 < sigma) by now apply sample_pos.
  pose proof (call_value_nonneg S K T r sigma HS HK HT Hsig).
  pose proof (put_value_nonneg S K T r sigma HS HK HT Hsig).
  pose proof (call_value_le_spot S K T r sigma HS HK HT Hsig).
  pose proof (call_minus_put_value S K T r sigma).
  split_conj; try assumption; lra.
Qed.

Lemma sweep_cells_real_witness :
  exists st, heatmap_sweep 100 1 0.05 50 150 0.1 0.5 = Some st
    /\ exists c p,
         getitem (call_prices st) 0 0 = Some (Some c)
         /\ getitem (put_prices st) 0 0 = Some (Some p)
         /\ 0 <= c /\ 0 <= p.
Proof.
  destruct (sweep_cells_real 100 1 0.05 10 50 150 0.1 0.5
              ltac:(lia) ltac:(lra) ltac:(lra) ltac:(lra) ltac:(lra)
              ltac:(lra) ltac:(lra)) as (st & Hrun & Hcells).
  exists st. split; [exact Hrun | ].
  destruct (Hcells 0%nat 0%nat ltac:(lia) ltac:(lia))
    as (c & p & Hc & Hp & _ & [Hc0 _] & [Hp0 _]).
  exists c, p. split_conj; assumption.
Defined.

(** X13.  With valid inputs and ascending ranges the heat maps are
    monotone: along a row the call cells do not fall and the put cells do
    not rise as the column index grows; down a column neither the call
    cells nor the put cells fall as the row index grows. *)
Theorem sweep_grids_monotone (K T r : R) (steps : nat)
  (min_spot max_spot min_volatility max_volatility : R) :
  (2 <= steps)%nat -> 0 < K -> 0 < T ->
  0 < min_spot -> min_spot <= max_spot ->
  0 < min_volatility -> min_volatility <= max_volatility ->
  exists st,
    sweep K T r steps min_spot max_spot min_volatility max_volatility = Some st
    /\ forall i i' j j',
       (i <= i')%nat -> (i' < steps)%nat -> (j <= j')%nat -> (j' < steps)%nat ->
       exists c c_right c_below p p_right p_below,
         getitem (call_prices st) i j = Some (Some c)
         /\ getitem (call_prices st) i j' = Some (Some c_right)
         /\ getitem (call_prices st) i' j = Some (Some c_below)
         /\ getitem (put_prices st) i j = Some (Some p)
         /\ getitem (put_prices st) i j' = Some (Some p_right)
         /\ getitem (put_prices st) i' j = Some (Some p_below)
         /\ c <= c_right /\ p_right <= p
         /\ c <= c_below /\ p <= p_below.
Proof.
  intros Hsteps HK HT Hs1 Hs12 Hv1 Hv12.
  destruct (valid_cells K T r steps min_spot max_spot min_volatility
              max_volatility Hsteps HK HT Hs1 ltac:(lra) Hv1 ltac:(lra))
    as (st & Hrun & Hcells).
  exists st. split; [exact Hrun | ].
  intros i i' j j' Hii Hi' Hjj Hj'.
  assert (Hi : (i < steps)%nat) by lia. assert (Hj : (j < steps)%nat) by lia.
  destruct (Hcells i j Hi Hj) as [Hc Hp].
  destruct (Hcells i j' Hi Hj') as [Hcr Hpr].
  destruct (Hcells i' j Hi' Hj) as [Hcb Hpb].
  do 6 eexists. split_conj; try eassumption; unfold cell_call, cell_put.
  - apply values_ordered_by_spot; try assumption.
    + apply sample_pos; (assumption || lra).
    + apply sample_pos; (assumption || lra).
    + now apply sample_increasing.
  - apply values_ordered_by_spot; try assumption.
    + apply sample_pos; (assumption || lra).
    + apply sample_pos; (assumption || lra).
    + now apply sample_increasing.
  - apply values_ordered_by_volatility; try assumption.
    + apply sample_pos; (assumption || lra).
    + apply sample_pos; (assumption || lra).
    + now apply sample_increasing.
  - apply values_ordered_by_volatility; try assumption.
    + apply sample_pos; (assumption || lra).
    + apply sample_pos; (assumption || lra).
    + now apply sample_increasing.
Qed.

Lemma sweep_grids_monotone_witness :
  exists st, heatmap_sweep 100 1 0.05 50 150 0.1 0.5 = Some st
    /\ exists c c_right p p_right,
         getitem (call_prices st) 0 0 = Some (Some c)
         /\ getitem (call_prices st) 0 9 = Some (Some c_right)
         /\ getitem (put_prices st) 0 0 = Some (Some p)
         /\ getitem (put_prices st) 0 9 = Some (Some p_right)
         /\ c <= c_right /\ p_right <= p.
Proof.
  destruct (sweep_grids_monotone 100 1 0.05 10 50 150 0.1 0.5
              ltac:(lia) ltac:(lra) ltac:(lra) ltac:(lra) ltac:(lra)
              ltac:(lra) ltac:(lra)) as (st & Hrun & Hmono).
  exists st. split; [exact Hrun | ].
  destruct (Hmono 0%nat 0%nat 0%nat 9%nat ltac:(lia) ltac:(lia) ltac:(lia) ltac:(lia))
    as (c & cr & cb & p & pr & pb & Hc & Hcr & _ & Hp & Hpr & _ & H1 & H2 & _).
  exists c, cr, p, pr. split_conj; assumption.
Defined.

(** X14.  An inverted spot range is neither rejected nor swapped: with
    [0 < max_spot <= min_spot] the sweep still ends with both grids,
    column 0 is priced at [min_spot], the last column at [max_spot], the
    spot samples do not rise with the column index, and so along a row the
    call cells do not rise and the put cells do not fall. *)
Theorem sweep_inverted_spot_range (K T r : R) (steps : nat)
  (min_spot max_spot min_volatility max_volatility : R) :
  (2 <= steps)%nat -> 0 < K -> 0 < T ->
  0 < max_spot -> max_spot <= min_spot ->
  0 < min_volatility -> 0 < max_volatility ->
  exists st,
    sweep K T r steps min_spot max_spot min_volatility max_volatility = Some st
    /\ sample min_spot max_spot steps 0 = min_spot
    /\ sample min_spot max_spot steps (steps - 1) = max_spot
    /\ forall i j j',
       (i < steps)%nat -> (j <= j')%nat -> (j' < steps)%nat ->
       sample min_spot max_spot steps j' <= sample min_spot max_spot steps j
       /\ exists c c_right p p_right,
         getitem (call_prices st) i j = Some (Some c)
         /\ getitem (call_prices st) i j' = Some (Some c_right)
         /\ getitem (put_prices st) i j = Some (Some p)
         /\ getitem (put_prices st) i j' = Some (Some p_right)
         /\ c_right <= c /\ p <= p_right.
Proof.
  intros Hsteps HK HT Hs2 Hs21 Hv1 Hv2.
  destruct (valid_cells K T r steps min_spot max_spot min_volatility
              max_volatility Hsteps HK HT ltac:(lra) Hs2 Hv1 Hv2)
    as (st & Hrun & Hcells).
  exists st. split_conj.
  - exact Hrun.
  - apply sample_first.
  - now apply sample_last.
  - intros i j j' Hi Hjj Hj'.
    assert (Hj : (j < steps)%nat) by lia.
    pose proof (sample_decreasing min_spot max_spot steps j j' Hsteps Hs21 Hjj) as Hdec.
    split; [exact Hdec | ].
    destruct (Hcells i j Hi Hj) as [Hc Hp].
    destruct (Hcells i j' Hi Hj') as [Hcr Hpr].
    do 4 eexists. split_conj; try eassumption; unfold cell_call, cell_put.
    + apply values_ordered_by_spot; try assumption.
      * apply sample_pos; (assumption || lra).
      * apply sample_pos; (assumption || lra).
    + apply values_ordered_by_spot; try assumption.
      * apply sample_pos; (assumption || lra).
      * apply sample_pos; (assumption || lra).
Qed.

Lemma sweep_inverted_spot_range_witness :
  exists st, heatmap_sweep 100 1 0.05 150 50 0.1 0.5 = Some st
    /\ sample 150 50 10 0 = 150 /\ sample 150 50 10 (10 - 1) = 50.
Proof.
  destruct (sweep_inverted_spot_range 100 1 0.05 10 150 50 0.1 0.5
              ltac:(lia) ltac:(lra) ltac:(lra) ltac:(lra) ltac:(lra)
              ltac:(lra) ltac:(lra)) as (st & Hrun & H0 & H9 & _).
  exists st. split_conj; assumption.
Defined.

(** ** The price for a vanishing volatility *)

Section SmallVolatility.

Variables S K T r : R.
Hypothesis S_pos : 0 < S.
Hypothesis K_pos : 0 < K.
Hypothesis T_pos : 0 < T.

(** The logarithm of the spot over the discounted strike. *)
Definition log_moneyness : R := ln (S / K) + r * T.

Lemma log_moneyness_sign :
  (0 < log_moneyness <-> K * exp (- r * T) < S)
  /\ (log_moneyness = 0 <-> S = K * exp (- r * T)).
Proof.
  unfold log_moneyness.
  assert (Hq : 0 < S / K) by now apply ratio_pos.
  assert (Hexp : exp (ln (S / K) + r * T) = S / (K * exp (- r * T))).
  { rewrite exp_plus, exp_ln by exact Hq.
    replace (- r * T) with (- (r * T)) by ring. rewrite exp_Ropp.
    pose proof (exp_pos (r * T)). field. lra. }
  pose proof (discount_pos K T r K_pos) as HD.
  set (D := K * exp (- r * T)) in *. set (m := ln (S / K) + r * T) in *.
  assert (HSD : S = D * exp m) by (rewrite Hexp; field; lra).
  split; split; intros H.
  - assert (1 < exp m) by (rewrite <- exp_0; now apply exp_increasing). nra.
  - destruct (Rlt_dec 0 m) as [Hm | Hm]; [exact Hm | exfalso].
    assert (exp m <= 1).
    { rewrite <- exp_0. destruct (Req_dec m 0) as [-> | Hne]; [lra | ].
      left. apply exp_increasing. lra. }
    nra.
  - rewrite H, exp_0 in HSD. lra.
  - apply exp_inv. rewrite exp_0.
    apply (Rmult_eq_reg_l D); lra.
Qed.

Lemma d1_formula_split (sigma : R) :
  0 < sigma ->
  d1_formula S K T r sigma = log_moneyness / (sigma * sqrt T) + sigma * sqrt T / 2
  /\ d2_formula S K T r sigma = log_moneyness / (sigma * sqrt T) - sigma * sqrt T / 2.
Proof.
  intros Hs. pose proof (sqrt_lt_R0 T T_pos) as Hq.
  pose proof (sqrt_sqrt T (Rlt_le _ _ T_pos)) as Hqq.
  assert (H1 : d1_formula S K T r sigma
               = log_moneyness / (sigma * sqrt T) + sigma * sqrt T / 2).
  { unfold d1_formula, log_moneyness. set (q := sqrt T) in *.
    rewrite <- Hqq. field. split; lra. }
  split; [exact H1 | ]. unfold d2_formula. rewrite H1. field. split; lra.
Qed.

End SmallVolatility.

Lemma norm_pdf_le_1 (x : R) : norm_pdf x <= 1.
Proof.
  unfold norm_pdf. pose proof inv_sqrt_2PI_bounds as [Hk0 Hk].
  assert (He : exp (- x ^ 2 / 2) <= 1).
  { pose proof (pow2_ge_0 x) as Hx.
    replace (- x ^ 2 / 2) with (- (x ^ 2 / 2)) by lra.
    pose proof (exp_neg_upper2 (x ^ 2 / 2) ltac:(lra)) as Hu.
    pose proof (exp_ineq1_le (x ^ 2 / 2)) as Hl.
    pose proof (exp_pos (- (x ^ 2 / 2))) as Hp.
    assert (Hinv : exp (- (x ^ 2 / 2)) * exp (x ^ 2 / 2) = 1).
    { rewrite <- exp_plus, Rplus_opp_l. apply exp_0. }
    nra. }
  pose proof (exp_pos (- x ^ 2 / 2)). unfold Rdiv.
  assert (0 < / sqrt (2 * PI)) by lra.
  nra.
Qed.

Lemma norm_cdf_near_half (x : R) : 0 <= x -> norm_cdf x - norm_cdf (- x) <= 2 * x.
Proof.
  intros Hx. rewrite norm_cdf_opp.
  pose proof (increasing_of_derivative (fun t => t - norm_cdf t)
                (fun t => 1 - norm_pdf t) 0 x Hx) as H.
  cbn beta in H. rewrite norm_cdf_0 in H.
  enough (0 - 1 / 2 <= x - norm_cdf x) by lra.
  apply H.
  - intros c _. apply derivable_pt_lim_minus;
      [apply derivable_pt_lim_id | apply norm_cdf_derivative].
  - intros c _. pose proof (norm_pdf_le_1 c). lra.
Qed.

(** A small [a > 0] sends [a / 2 - m / a] below any bound when [m > 0]. *)
Lemma tail_choice (m x0 : R) : 0 < m -> exists a, 0 < a /\ a / 2 - m / a <= x0.
Proof.
  intros Hm.
  set (b := Rmax 1 (1 / 2 - x0)).
  assert (Hb1 : 1 <= b) by apply Rmax_l.
  assert (Hb2 : 1 / 2 - x0 <= b) by apply Rmax_r.
  set (a := Rmin 1 (m / b)).
  assert (Hmb : 0 < m / b) by (apply Rdiv_lt_0_compat; lra).
  assert (Ha0 : 0 < a) by (apply Rmin_glb_lt; lra).
  assert (Ha1 : a <= 1) by apply Rmin_l.
  assert (Ha2 : a <= m / b) by apply Rmin_r.
  exists a. split; [exact Ha0 | ].
  assert (Hma : b <= m / a).
  { apply (Rmult_le_reg_r a); [exact Ha0 | ].
    replace (m / a * a) with m by (field; lra).
    apply (Rmult_le_compat_l b) in Ha2; [ | lra].
    replace (b * (m / b)) with m in Ha2 by (field; lra). lra. }
  lra.
Qed.

Section SmallVolatilityLimit.

Variables S K T r : R.
Hypothesis S_pos : 0 < S.
Hypothesis K_pos : 0 < K.
Hypothesis T_pos : 0 < T.

Lemma volatility_of_width (a : R) :
  0 < a -> 0 < a / sqrt T /\ a / sqrt T * sqrt T = a.
Proof.
  intros Ha. pose proof (sqrt_lt_R0 T T_pos) as Hq.
  split; [now apply Rdiv_lt_0_compat | field; lra].
Qed.

(** Some positive volatility brings the call price within [eps] of its
    floor. *)
Lemma call_value_near_floor (eps : R) :
  0 < eps ->
  exists sigma0, 0 < sigma0
    /\ call_value S K T r sigma0 < Rmax (S - K * exp (- r * T)) 0 + eps.
Proof.
  intros Heps. pose proof (discount_pos K T r K_pos) as HD.
  pose proof (exp_pos (- r * T)) as Hexp.
  pose proof (log_moneyness_sign S K T r S_pos K_pos) as [Hpos Hzero].
  pose proof (Rmax_l (S - K * exp (- r * T)) 0) as Hmax1.
  pose proof (Rmax_r (S - K * exp (- r * T)) 0) as Hmax2.
  destruct (Rtotal_order 0 (log_moneyness S K T r)) as [Hm | [Hm | Hm]].
  - (* in the money: the put price is small *)
    destruct (norm_cdf_vanishes (eps / (K * exp (- r * T)))
                ltac:(apply Rdiv_lt_0_compat; lra)) as (x0 & Hx0).
    destruct (tail_choice (log_moneyness S K T r) x0 Hm) as (a & Ha & Hle).
    destruct (volatility_of_width a Ha) as [Hs Hw].
    exists (a / sqrt T). split; [exact Hs | ].
    destruct (d1_formula_split S K T r T_pos (a / sqrt T) Hs) as [_ H2].
    rewrite Hw in H2.
    pose proof (call_minus_put_value S K T r (a / sqrt T)) as Hpar.
    enough (put_value S K T r (a / sqrt T) < eps) by lra.
    unfold put_value. rewrite H2.
    pose proof (Hx0 (- (log_moneyness S K T r / a - a / 2)) ltac:(lra)) as Hsmall.
    pose proof (norm_cdf_range (- d1_formula S K T r (a / sqrt T))) as [Hn0 _].
    assert (K * exp (- r * T) * norm_cdf (- (log_moneyness S K T r / a - a / 2))
            < eps).
    { apply (Rmult_lt_compat_l (K * exp (- r * T))) in Hsmall; [ | exact HD].
      replace (K * exp (- r * T) * (eps / (K * exp (- r * T)))) with eps in Hsmall
        by (field; split; lra).
      exact Hsmall. }
    assert (0 <= S * norm_cdf (- d1_formula S K T r (a / sqrt T)))
      by (apply Rmult_le_pos; lra).
    lra.
  - (* at the money forward *)
    assert (HSD : S = K * exp (- r * T)) by (apply Hzero; now symmetry).
    set (a := eps / (2 * S)).
    assert (Ha : 0 < a) by (apply Rdiv_lt_0_compat; lra).
    destruct (volatility_of_width a Ha) as [Hs Hw].
    exists (a / sqrt T). split; [exact Hs | ].
    destruct (d1_formula_split S K T r T_pos (a / sqrt T) Hs) as [H1 H2].
    rewrite Hw, <- Hm in H1, H2.
    unfold call_value. rewrite H1, H2, <- HSD.
    replace (0 / a + a / 2) with (a / 2) by (field; lra).
    replace (0 / a - a / 2) with (- (a / 2)) by (field; lra).
    pose proof (norm_cdf_near_half (a / 2) ltac:(lra)) as Hnear.
    assert (S * (norm_cdf (a / 2) - norm_cdf (- (a / 2))) <= S * (2 * (a / 2))).
    { apply Rmult_le_compat_l; lra. }
    replace (S * (2 * (a / 2))) with (eps / 2) in * by (unfold a; field; lra).
    pose proof (Rmax_r (S - S) 0). lra.
  - (* out of the money: the call price itself is small *)
    destruct (norm_cdf_vanishes (eps / S) ltac:(apply Rdiv_lt_0_compat; lra))
      as (x0 & Hx0).
    destruct (tail_choice (- log_moneyness S K T r) x0 ltac:(lra)) as (a & Ha & Hle).
    destruct (volatility_of_width a Ha) as [Hs Hw].
    exists (a / sqrt T). split; [exact Hs | ].
    destruct (d1_formula_split S K T r T_pos (a / sqrt T) Hs) as [H1 _].
    rewrite Hw in H1.
    unfold call_value. rewrite H1.
    assert (Harg : log_moneyness S K T r / a + a / 2 <= x0).
    { replace (log_moneyness S K T r / a) with (- (- log_moneyness S K T r / a))
        by (field; lra).
      lra. }
    pose proof (Hx0 _ Harg) as Hsmall.
    pose proof (norm_cdf_range (d2_formula S K T r (a / sqrt T))) as [Hn0 _].
    assert (S * norm_cdf (log_moneyness S K T r / a + a / 2) < eps).
    { apply (Rmult_lt_compat_l S) in Hsmall; [ | exact S_pos].
      replace (S * (eps / S)) with eps in Hsmall by (field; lra).
      exact Hsmall. }
    assert (0 <= K * exp (- r * T) * norm_cdf (d2_formula S K T r (a / sqrt T)))
      by (apply Rmult_le_pos; lra).
    lra.
Qed.

End SmallVolatilityLimit.

(** X15.  As the volatility goes to zero from above the prices go to
    their floors: for valid [S], [K], [T] and every [eps > 0] there is a
    [delta > 0] such that for every [0 < sigma < delta] the call price is
    within [eps] above [max (S - K exp (- r T)) 0] and the put price
    within [eps] above [max (K exp (- r T) - S) 0]. *)
Theorem small_volatility_limit (S K T r eps : R) :
  0 < S -> 0 < K -> 0 < T -> 0 < eps ->
  exists delta, 0 < delta /\
    forall sigma, 0 < sigma < delta ->
    exists c p,
      black_scholes S K T r sigma "call" = Returns (Some c)
      /\ black_scholes S K T r sigma "put" = Returns (Some p)
      /\ Rmax (S - K * exp (- r * T)) 0 <= c < Rmax (S - K * exp (- r * T)) 0 + eps
      /\ Rmax (K * exp (- r * T) - S) 0 <= p < Rmax (K * exp (- r * T) - S) 0 + eps.
Proof.
  intros HS HK HT Heps.
  destruct (call_value_near_floor S K T r HS HK HT eps Heps) as (sigma0 & H0 & Hnear).
  exists sigma0. split; [exact H0 | ].
  intros sigma [Hs Hlt].
  exists (call_value S K T r sigma), (put_value S K T r sigma).
  pose proof (call_value_volatility_increasing S K T r sigma sigma0 HS HK HT Hs
                ltac:(lra)) as Hmono.
  pose proof (call_value_nonneg S K T r sigma HS HK HT Hs) as Hc0.
  pose proof (put_value_nonneg S K T r sigma HS HK HT Hs) as Hp0.
  pose proof (call_minus_put_value S K T r sigma) as Hpar.
  assert (Hfloor : Rmax (K * exp (- r * T) - S) 0
                   = Rmax (S - K * exp (- r * T)) 0 - (S - K * exp (- r * T))).
  { unfold Rmax.
    destruct (Rle_dec (K * exp (- r * T) - S) 0);
      destruct (Rle_dec (S - K * exp (- r * T)) 0); lra. }
  assert (Hcfloor : Rmax (S - K * exp (- r * T)) 0 <= call_value S K T r sigma)
    by (apply Rmax_lub; lra).
  split_conj.
  - now apply black_scholes_call_valid.
  - now apply black_scholes_put_valid.
  - exact Hcfloor.
  - lra.
  - rewrite Hfloor. lra.
  - rewrite Hfloor. lra.
Qed.

Lemma small_volatility_limit_witness :
  exists delta, 0 < delta /\
    forall sigma, 0 < sigma < delta ->
    exists c p,
      black_scholes 100 100 1 0.05 sigma "call" = Returns (Some c)
      /\ black_scholes 100 100 1 0.05 sigma "put" = Returns (Some p)
      /\ Rmax (100 - 100 * exp (- (0.05) * 1)) 0 <= c
         < Rmax (100 - 100 * exp (- (0.05) * 1)) 0 + 0.01
      /\ Rmax (100 * exp (- (0.05) * 1) - 100) 0 <= p
         < Rmax (100 * exp (- (0.05) * 1) - 100) 0 + 0.01.
Proof.
  apply (small_volatility_limit 100 100 1 0.05 0.01); lra.
Defined.
